(** * cs2-leaderboard: the game session aggregation engine

    A shallow embedding of [src/index.js]: snapshot segmentation
    ([groupFilesIntoGames]), result resolution ([aggregateGameResults]),
    live-session detection ([aggregateCurrentGame]), history reconciliation
    ([updateAllResults]) and the leaderboard roll-up
    ([aggregateLeaderboardFromGames]).

    Conventions of the embedding.
    - A JavaScript Number that holds an integer is a [Z]; the embedding is
      exact while magnitudes stay below 2^53.  [NaN] and the [null] that
      [JSON.stringify] writes for it are kept as separate values.
    - A [Date] is its time value in milliseconds (a [Z]); [toISOString] is an
      injective rendering of it, so the ISO strings stored in a game result are
      represented by the time value itself.
    - A property that may be missing is an [option]; an object used as a map
      is the list of its own values in enumeration order.  Where the code
      looks a player name up in such an object, the members every object
      inherits ([constructor], [toString], ...) are accounted for
      ([has_entry]). *)

From Stdlib Require Import ZArith List String Ascii Bool Lia.
From Stdlib Require Import Permutation Sorted DecimalString DecimalN.
Import ListNotations.

Open Scope Z_scope.
Open Scope list_scope.

(** ** JavaScript values *)

Module Js.

(** The content of a numeric slot. *)
Inductive num : Type :=
| Num (z : Z)
| NaN
| Null.

(** [ToNumber]: [null] converts to [0]. *)
Definition to_number (a : num) : num :=
  match a with Null => Num 0 | _ => a end.

(** [a + b] on numbers. *)
Definition add (a b : num) : num :=
  match to_number a, to_number b with
  | Num x, Num y => Num (x + y)
  | _, _ => NaN
  end.

(** [a === b]. *)
Definition strict_eq (a b : num) : bool :=
  match a, b with
  | Num x, Num y => x =? y
  | Null, Null => true
  | _, _ => false
  end.

(** [a > b]. *)
Definition gt (a b : num) : bool :=
  match to_number a, to_number b with
  | Num x, Num y => y <? x
  | _, _ => false
  end.

(** Truthiness of a numeric slot: [0], [NaN] and [null] are falsy. *)
Definition truthy (a : num) : bool :=
  match a with
  | Num z => negb (z =? 0)
  | _ => false
  end.

(** [s || d] for a string property that may be missing: [undefined] and the
    empty string are falsy. *)
Definition or_else (s : option string) (d : string) : string :=
  match s with
  | Some (String c r) => String c r
  | _ => d
  end.

(** [Number.prototype.toString()] on an integer. *)
Definition toString (z : Z) : string :=
  if z <? 0
  then String "-" (NilZero.string_of_uint (N.to_uint (Z.to_N (- z))))
  else NilZero.string_of_uint (N.to_uint (Z.to_N z)).

(** [s.padStart(n, "0")]. *)
Fixpoint zeros (n : nat) : string :=
  match n with
  | O => EmptyString
  | S k => String "0" (zeros k)
  end.

Definition padStart0 (n : nat) (s : string) : string :=
  (zeros (n - String.length s) ++ s)%string.

(** *** [parseInt(s, 10)] *)

Definition is_digit (c : ascii) : bool :=
  let n := N_of_ascii c in ((48 <=? n) && (n <=? 57))%N.

(** The ASCII white space and line terminators. *)
Definition is_space (c : ascii) : bool :=
  let n := N_of_ascii c in
  ((n =? 9) || (n =? 10) || (n =? 11) || (n =? 12) || (n =? 13) || (n =? 32))%N.

Fixpoint skip_spaces (s : string) : string :=
  match s with
  | String c r => if is_space c then skip_spaces r else s
  | EmptyString => EmptyString
  end.

Fixpoint digit_prefix (s : string) : string :=
  match s with
  | String c r => if is_digit c then String c (digit_prefix r) else EmptyString
  | EmptyString => EmptyString
  end.

(** The value of the longest run of leading digits, [NaN] when there is
    none. *)
Definition read_digits (s : string) : num :=
  match digit_prefix s with
  | EmptyString => NaN
  | p =>
      match NilEmpty.uint_of_string p with
      | Some u => Num (Z.of_N (N.of_uint u))
      | None => NaN
      end
  end.

Definition negate (a : num) : num :=
  match a with Num z => Num (- z) | _ => a end.

Definition parseInt (s : string) : num :=
  match skip_spaces s with
  | String "-" r => negate (read_digits r)
  | String "+" r => read_digits r
  | t => read_digits t
  end.

(** [parseInt(x || "0", 10)] when [x] is a numeric slot: a truthy number
    is converted to its decimal numeral and read back, anything falsy is
    replaced by the string ["0"]. *)
Definition parseInt_or_zero (a : num) : num :=
  match a with
  | Num z => if truthy a then parseInt (toString z) else parseInt "0"
  | _ => parseInt "0"
  end.

End Js.

(** ** Snapshot records *)

(** A score component, [{ team1, team2 }], as decoded: both fields are
    strings and either may be missing. *)
Record ScoreEntry : Type := mkScore {
  se_team1 : option string;
  se_team2 : option string
}.

(** One entry of [PlayersOnTeam1] / [PlayersOnTeam2]. *)
Record PlayerEntry : Type := mkPlayerEntry {
  pe_name : option string;
  pe_kills : option string;
  pe_deaths : option string
}.

(** The [SaveFile] section of a decoded snapshot. *)
Record SaveFile : Type := mkSaveFile {
  sf_map : option string;
  FirstHalfScore : option ScoreEntry;
  SecondHalfScore : option ScoreEntry;
  OvertimeScore : option ScoreEntry;
  PlayersOnTeam1 : option (list PlayerEntry);
  PlayersOnTeam2 : option (list PlayerEntry)
}.

(** The objects pushed onto [fileInfos]:
    [{ name, timestamp, round, data }]. *)
Record FileInfo : Type := mkFileInfo {
  fi_name : string;
  timestamp : Z;
  round : Js.num;
  data : SaveFile
}.

(** ** Helpers of the source *)

(** [formatDuration(seconds)]: [%] is the truncating remainder, [Math.floor]
    of a quotient by a positive constant is [Z.div]. *)
Definition formatDuration (seconds : Z) : string :=
  match Js.parseInt (Js.toString seconds) with
  | Js.Num sec =>
      let h := sec / 3600 in
      let m := Z.rem sec 3600 / 60 in
      let s := Z.rem sec 60 in
      (Js.padStart0 2 (Js.toString h) ++ ":" ++
       Js.padStart0 2 (Js.toString m) ++ ":" ++
       Js.padStart0 2 (Js.toString s))%string
  | _ => "NaN:NaN:NaN"%string
  end.

(** [Array.prototype.sort(cmp)] with a consistent comparator is the stable
    sort; [le a b] stands for [cmp(a, b) <= 0]. *)
Section StableSort.
Context {A : Type} (le : A -> A -> bool).

Fixpoint insert_sorted (x : A) (l : list A) : list A :=
  match l with
  | [] => [x]
  | y :: r => if le x y then x :: y :: r else y :: insert_sorted x r
  end.

Fixpoint stable_sort (l : list A) : list A :=
  match l with
  | [] => []
  | x :: r => insert_sorted x (stable_sort r)
  end.
End StableSort.

(** [(a, b) => a.timestamp - b.timestamp] *)
Definition by_timestamp (a b : FileInfo) : bool := timestamp a <=? timestamp b.

(** [a !== b] on a string property that may be missing. *)
Definition map_differs (a b : option string) : bool :=
  match a, b with
  | Some x, Some y => negb (String.eqb x y)
  | None, None => false
  | _, _ => true
  end.

Definition nonempty {A : Type} (l : list A) : bool :=
  match l with [] => false | _ => true end.

(** One iteration of the loop of [groupFilesIntoGames], on the pair
    [(groups, currentGame)]. *)
Definition segment_step (st : list (list FileInfo) * list FileInfo)
    (info : FileInfo) : list (list FileInfo) * list FileInfo :=
  let '(groups, currentGame) := st in
  if Js.strict_eq (round info) (Js.Num 1) && nonempty currentGame then
    (groups ++ [currentGame], [info])
  else if nonempty currentGame &&
          match currentGame with
          | first :: _ => map_differs (sf_map (data info)) (sf_map (data first))
          | [] => false
          end then
    (groups ++ [currentGame], [info])
  else
    (groups, currentGame ++ [info]).

Definition segment_finish (st : list (list FileInfo) * list FileInfo)
  : list (list FileInfo) :=
  let '(groups, currentGame) := st in
  if nonempty currentGame then groups ++ [currentGame] else groups.

Definition groupFilesIntoGames (fileInfos : list FileInfo) : list (list FileInfo) :=
  segment_finish
    (fold_left segment_step (stable_sort by_timestamp fileInfos) ([], [])).

(** [getFinalScore(saveFile)] *)
Record Score : Type := mkScorePair {
  team1 : Js.num;
  team2 : Js.num
}.

Definition add_component (acc : Score) (c : option ScoreEntry) : Score :=
  match c with
  | Some e =>
      {| team1 := Js.add (team1 acc) (Js.parseInt (Js.or_else (se_team1 e) "0"));
         team2 := Js.add (team2 acc) (Js.parseInt (Js.or_else (se_team2 e) "0")) |}
  | None => acc
  end.

Definition getFinalScore (saveFile : SaveFile) : Score :=
  let s := {| team1 := Js.Num 0; team2 := Js.Num 0 |} in
  let s := add_component s (FirstHalfScore saveFile) in
  let s := add_component s (SecondHalfScore saveFile) in
  add_component s (OvertimeScore saveFile).

(** ** Game results *)

Record PlayerStat : Type := mkPlayerStat {
  name : string;
  kills : Js.num;
  deaths : Js.num
}.

Record Players : Type := mkPlayers {
  players_team1 : list PlayerStat;
  players_team2 : list PlayerStat
}.

Record GameResult : Type := mkGameResult {
  startTime : Z;
  endTime : Z;
  duration : string;
  game_map : string;
  finalScore : Score;
  players : Players;
  winner : list string;
  loser : list string
}.

(** The roster loop of one team key: entries whose name is missing, empty or
    ["Unknown"] are skipped. *)
Definition keeps_name (p : PlayerEntry) : bool :=
  let n := Js.or_else (pe_name p) "" in
  negb (String.eqb n "") && negb (String.eqb n "Unknown").

Definition extractPlayers (team : option (list PlayerEntry)) : list PlayerStat :=
  match team with
  | None => []
  | Some teamPlayers =>
      flat_map
        (fun p =>
           if keeps_name p then
             [ {| name := Js.or_else (pe_name p) "";
                  kills := Js.parseInt (Js.or_else (pe_kills p) "0");
                  deaths := Js.parseInt (Js.or_else (pe_deaths p) "0") |} ]
           else [])
        teamPlayers
  end.

(** [winner] and [loser] before the final mapping to names: [null] unless the
    scores differ. *)
Definition decide (score : Score) (ps : Players)
  : option (list PlayerStat) * option (list PlayerStat) :=
  if negb (Js.strict_eq (team1 score) (team2 score)) then
    if Js.gt (team1 score) (team2 score)
    then (Some (players_team1 ps), Some (players_team2 ps))
    else (Some (players_team2 ps), Some (players_team1 ps))
  else (None, None).

Definition names_or_empty (side : option (list PlayerStat)) : list string :=
  match side with
  | Some l => map name l
  | None => []
  end.

(** The result of a block that may throw. *)
Inductive outcome (A : Type) : Type :=
| Threw
| Done (a : A).
Arguments Threw {A}.
Arguments Done {A} a.

Definition last_error {A : Type} (l : list A) : option A :=
  nth_error l (List.length l - 1)%nat.

(** The body of the loop over [gameGroups] in [aggregateGameResults]:
    [Done None] is a [continue], [Done (Some r)] a [push], and reading
    [group[0]] or [group[group.length - 1]] of an empty group throws. *)
Definition resolveGroup (group0 : list FileInfo) : outcome (option GameResult) :=
  let group := stable_sort by_timestamp group0 in
  match nth_error group 0, last_error group with
  | Some first, Some finalSnapshot =>
      let startTime := timestamp first in
      let endTime := timestamp finalSnapshot in
      let durationSeconds := (endTime - startTime) / 1000 in
      let duration := formatDuration durationSeconds in
      if String.eqb duration "00:00:00" then Done None else
      let map := Js.or_else (sf_map (data finalSnapshot)) "Unknown" in
      let finalScore := getFinalScore (data finalSnapshot) in
      if Js.strict_eq (team1 finalScore) (Js.Num 0) &&
         Js.strict_eq (team2 finalScore) (Js.Num 0) then Done None else
      let players :=
        {| players_team1 := extractPlayers (PlayersOnTeam1 (data finalSnapshot));
           players_team2 := extractPlayers (PlayersOnTeam2 (data finalSnapshot)) |} in
      let '(winner, loser) := decide finalScore players in
      Done (Some {| startTime := startTime;
                    endTime := endTime;
                    duration := duration;
                    game_map := map;
                    finalScore := finalScore;
                    players := players;
                    winner := names_or_empty winner;
                    loser := names_or_empty loser |})
  | _, _ => Threw
  end.

Fixpoint resolveGroups (gameGroups : list (list FileInfo))
  : outcome (list GameResult) :=
  match gameGroups with
  | [] => Done []
  | group :: rest =>
      match resolveGroup group with
      | Threw => Threw
      | Done r =>
          match resolveGroups rest with
          | Threw => Threw
          | Done rs =>
              Done (match r with Some g => g :: rs | None => rs end)
          end
      end
  end.

(** ** Persistence and retrieval *)

(** What [JSON.stringify] followed by [JSON.parse] does to a numeric slot. *)
Definition json_num (a : Js.num) : Js.num :=
  match a with Js.NaN => Js.Null | _ => a end.

Definition json_player (p : PlayerStat) : PlayerStat :=
  {| name := name p; kills := json_num (kills p); deaths := json_num (deaths p) |}.

Definition json_game (g : GameResult) : GameResult :=
  {| startTime := startTime g;
     endTime := endTime g;
     duration := duration g;
     game_map := game_map g;
     finalScore := {| team1 := json_num (team1 (finalScore g));
                      team2 := json_num (team2 (finalScore g)) |};
     players := {| players_team1 := map json_player (players_team1 (players g));
                   players_team2 := map json_player (players_team2 (players g)) |};
     winner := winner g;
     loser := loser g |}.

(** What the polling phase of a cycle (connect, list, download, decode,
    lines 121-158) leaves in [fileInfos]. *)
Inductive Retrieval : Type :=
| RetrievalFailed                       (* an FTP or file operation threw *)
| NoBackupFiles                         (* [backupFiles.length === 0] *)
| Snapshots (fileInfos : list FileInfo).

(** [aggregateGameResults()] up to the write of [games.json]: the value it
    is about to return, or [Threw] when control reaches the [catch]. *)
Definition resolveSnapshots (fileInfos : list FileInfo) : outcome (list GameResult) :=
  resolveGroups (groupFilesIntoGames fileInfos).

(** ** Division and [toFixed(2)] on binary64

    [totalKills / totalDeaths] is a floating-point division.  For positive
    integers its result is computed here exactly, as a 53-bit mantissa and a
    binary exponent, with round-to-nearest, ties-to-even; quotients of
    integers below 2^53 are never subnormal and never overflow. *)

Module Double.

Record t : Type := mk { mantissa : Z; exponent : Z }.

Definition pow2 (e : Z) : Z := 2 ^ Z.max 0 e.

(** [floor (log2 (k / d))] for positive [k] and [d]. *)
Definition ilog2_quot (k d : Z) : Z :=
  let s := Z.log2 k - Z.log2 d in
  if d * pow2 s <=? k * pow2 (- s) then s else s - 1.

(** The double nearest to [k / d], for [0 <= k] and [0 < d]. *)
Definition div (k d : Z) : t :=
  if k =? 0 then mk 0 0 else
  let e := ilog2_quot k d - 52 in
  let n := k * pow2 (- e) in
  let q := d * pow2 e in
  let m0 := n / q in
  let r := n mod q in
  let m := if 2 * r <? q then m0
           else if q <? 2 * r then m0 + 1
           else if Z.even m0 then m0 else m0 + 1 in
  mk m e.

(** [Number.prototype.toFixed(2)], step "let n be an integer for which
    n / 100 - x is as close to zero as possible; if there are two such n,
    pick the larger": [n = floor (100 * x + 1/2)], computed on the exact
    value of [x]. *)
Definition hundredths (x : t) : Z :=
  (200 * mantissa x * pow2 (exponent x) + pow2 (- exponent x))
  / (2 * pow2 (- exponent x)).

(** The digits of [n], a decimal point before the last two. *)
Definition fixed2 (n : Z) : string :=
  (Js.toString (n / 100) ++ "." ++ Js.padStart0 2 (Js.toString (n mod 100)))%string.

End Double.

(** [(k / d).toFixed(2)] for a number [k] and a positive integer [d]. *)
Definition div_toFixed2 (k : Js.num) (d : Z) : string :=
  match Js.to_number k with
  | Js.Num z =>
      if z <? 0
      then String "-" (Double.fixed2 (Double.hundredths (Double.div (- z) d)))
      else Double.fixed2 (Double.hundredths (Double.div z d))
  | _ => "NaN"%string
  end.

(** ** The leaderboard *)

(** The objects held in [tempLeaderboard]. *)
Record Tally : Type := mkTally {
  entry_name : string;
  matchesPlayed : Z;
  wins : Z;
  totalKills : Js.num;
  totalDeaths : Js.num
}.

(** [kd] is either the string made by [toFixed] or the number [totalKills]. *)
Inductive kd_value : Type :=
| KdString (s : string)
| KdNumber (n : Js.num).

(** [{ ...p, kd }] *)
Record LeaderboardEntry : Type := mkEntry {
  stats : Tally;
  kd : kd_value
}.

(** [tempLeaderboard], an object keyed by player name, as the list of its
    own values in insertion order.

    [tempLeaderboard] is created as [{}], so [tempLeaderboard[n]] also
    reaches what every object inherits from [Object.prototype] (ECMA-262,
    20.1.3 and B.2.2).  For the names below it is a function, or for
    ["__proto__"] the prototype itself: a truthy value, although
    [tempLeaderboard] holds no entry of its own under [n]. *)
Definition object_prototype_members : list string :=
  [ "constructor"; "__defineGetter__"; "__defineSetter__"; "hasOwnProperty";
    "__lookupGetter__"; "__lookupSetter__"; "isPrototypeOf";
    "propertyIsEnumerable"; "toString"; "valueOf"; "__proto__";
    "toLocaleString" ]%string.

Definition inherited (n : string) : bool :=
  existsb (String.eqb n) object_prototype_members.

(** The truthiness of [tempLeaderboard[n]]. *)
Definition has_entry (n : string) (tl : list Tally) : bool :=
  inherited n || existsb (fun e => String.eqb (entry_name e) n) tl.

(** [tempLeaderboard[n]] updated by [f].  When [tempLeaderboard] has no
    entry of its own under [n], the object reached is an inherited member:
    the counters are written onto it and the own values are unchanged. *)
Fixpoint update_entry (n : string) (f : Tally -> Tally) (tl : list Tally) : list Tally :=
  match tl with
  | [] => []
  | e :: r =>
      if String.eqb (entry_name e) n then f e :: r else e :: update_entry n f r
  end.

Definition fresh_entry (n : string) : Tally :=
  {| entry_name := n; matchesPlayed := 0; wins := 0;
     totalKills := Js.Num 0; totalDeaths := Js.Num 0 |}.

(** The three updates of an entry in the first [forEach], and the one in the
    second. *)
Definition add_appearance (player : PlayerStat) (e : Tally) : Tally :=
  {| entry_name := entry_name e;
     matchesPlayed := matchesPlayed e + 1;
     wins := wins e;
     totalKills := Js.add (totalKills e) (kills player);
     totalDeaths := Js.add (totalDeaths e) (deaths player) |}.

Definition add_win (e : Tally) : Tally :=
  {| entry_name := entry_name e;
     matchesPlayed := matchesPlayed e;
     wins := wins e + 1;
     totalKills := totalKills e;
     totalDeaths := totalDeaths e |}.

(** The callback of the first [forEach] (lines 237-250).  For an inherited
    name the test of line 238 finds a truthy value, no entry is created and
    the three updates land on the inherited member.

    For ["__proto__"] that member is [Object.prototype] itself: the
    counters written onto it become enumerable members of every object,
    and from then on [for (let team in game.players)] (line 235) also
    visits them and [game.players[team].forEach] throws
    ([throws_after_proto]).  What is defined here is the value of a call
    that returns; the statements that need the call to return are made for
    histories none of whose rosters names ["__proto__"] ([plain_names]). *)
Definition credit_appearance (tl : list Tally) (player : PlayerStat) : list Tally :=
  let tl := if has_entry (name player) tl then tl else tl ++ [fresh_entry (name player)] in
  update_entry (name player) (add_appearance player) tl.

(** The callback of the second [forEach] (lines 256-258). *)
Definition credit_win (tl : list Tally) (player : PlayerStat) : list Tally :=
  update_entry (name player) add_win tl.

(** The roster credited with a win: [None] when the scores, read through
    [parseInt(s || "0", 10)], are equal. *)
Definition winning_roster (game : GameResult) : option (list PlayerStat) :=
  let score1 := Js.parseInt_or_zero (team1 (finalScore game)) in
  let score2 := Js.parseInt_or_zero (team2 (finalScore game)) in
  if negb (Js.strict_eq score1 score2) then
    Some (if Js.gt score1 score2
          then players_team1 (players game)
          else players_team2 (players game))
  else None.

(** One iteration of the loop over [gameResults] (lines 235-260). *)
Definition tally_game (tl : list Tally) (game : GameResult) : list Tally :=
  let tl := fold_left credit_appearance (players_team1 (players game)) tl in
  let tl := fold_left credit_appearance (players_team2 (players game)) tl in
  match winning_roster game with
  | Some roster => fold_left credit_win roster tl
  | None => tl
  end.

Definition tempLeaderboard (gameResults : list GameResult) : list Tally :=
  fold_left tally_game gameResults [].

(** Whether a call that starts with [Object.prototype] intact throws.  Once
    a game has a roster entry named ["__proto__"], lines 247-249 have put
    [matchesPlayed], [totalKills] and [totalDeaths] on [Object.prototype];
    the loop of line 235 over the players of the next game then visits
    these keys after ["team1"] and ["team2"], finds a number under them,
    and calling its [forEach] is a [TypeError].  In the game that names
    ["__proto__"] itself the keys of the loop were collected before the
    write. *)
Definition names_proto (game : GameResult) : bool :=
  existsb (fun p => String.eqb (name p) "__proto__")
          (players_team1 (players game) ++ players_team2 (players game)).

Fixpoint throws_after_proto (gameResults : list GameResult) : bool :=
  match gameResults with
  | [] => false
  | game :: rest =>
      if names_proto game
      then match rest with [] => false | _ :: _ => true end
      else throws_after_proto rest
  end.

(** [p.totalDeaths > 0 ? (p.totalKills / p.totalDeaths).toFixed(2) : p.totalKills] *)
Definition kd_of (p : Tally) : kd_value :=
  if Js.gt (totalDeaths p) (Js.Num 0) then
    match Js.to_number (totalDeaths p) with
    | Js.Num d => KdString (div_toFixed2 (totalKills p) d)
    | _ => KdNumber (totalKills p)
    end
  else KdNumber (totalKills p).

Definition with_kd (p : Tally) : LeaderboardEntry :=
  {| stats := p; kd := kd_of p |}.

(** [Object.values]: the properties whose key is an array index (a canonical
    numeral below 2^32 - 1) come first, in ascending order, then the others
    in insertion order. *)
Definition array_index (s : string) : option Z :=
  match Js.read_digits s with
  | Js.Num n =>
      if String.eqb (Js.toString n) s && (n <? 4294967295) then Some n else None
  | _ => None
  end.

Definition index_le (a b : Tally) : bool :=
  match array_index (entry_name a), array_index (entry_name b) with
  | Some x, Some y => x <=? y
  | _, _ => true
  end.

Definition is_indexed (e : Tally) : bool :=
  match array_index (entry_name e) with Some _ => true | None => false end.

Definition object_values (tl : list Tally) : list Tally :=
  stable_sort index_le (filter is_indexed tl)
  ++ filter (fun e => negb (is_indexed e)) tl.

(** [parseFloat] on a decimal literal without exponent part, as a numerator
    and a number of decimal places; [None] is [NaN]. *)
Fixpoint drop_digits (s : string) : string :=
  match s with
  | String c r => if Js.is_digit c then drop_digits r else s
  | EmptyString => EmptyString
  end.

Definition digits_value (s : string) : Z :=
  match NilEmpty.uint_of_string s with
  | Some u => Z.of_N (N.of_uint u)
  | None => 0
  end.

Definition parse_unsigned_decimal (s : string) : option (Z * nat) :=
  let int_part := Js.digit_prefix s in
  let frac_part :=
    match drop_digits s with
    | String "." r => Js.digit_prefix r
    | _ => EmptyString
    end in
  if (String.length int_part + String.length frac_part =? 0)%nat then None
  else Some (digits_value int_part * 10 ^ Z.of_nat (String.length frac_part)
             + digits_value frac_part,
             String.length frac_part).

Definition parseFloat (s : string) : option (Z * nat) :=
  match Js.skip_spaces s with
  | String "-" r =>
      match parse_unsigned_decimal r with
      | Some (n, p) => Some (- n, p)
      | None => None
      end
  | String "+" r => parse_unsigned_decimal r
  | t => parse_unsigned_decimal t
  end.

Definition parseFloat_kd (v : kd_value) : option (Z * nat) :=
  match v with
  | KdString s => parseFloat s
  | KdNumber (Js.Num z) => Some (z, O)
  | KdNumber _ => None
  end.

(** [(a, b) => parseFloat(b.kd) - parseFloat(a.kd)] is at most zero; a [NaN]
    difference counts as zero. *)
Definition by_kd_desc (a b : LeaderboardEntry) : bool :=
  match parseFloat_kd (kd b), parseFloat_kd (kd a) with
  | Some (nb, pb), Some (na, pa) =>
      nb * 10 ^ Z.of_nat pa <=? na * 10 ^ Z.of_nat pb
  | _, _ => true
  end.

(** [aggregateLeaderboardFromGames(gameResults)]; the value returned is also
    what is written to [leaderboard.json]. *)
Definition aggregateLeaderboardFromGames (gameResults : list GameResult)
  : list LeaderboardEntry :=
  stable_sort by_kd_desc (map with_kd (object_values (tempLeaderboard gameResults))).

(** ** The update cycle *)

Record Disk : Type := mkDisk {
  games_json : option (list GameResult);   (* [None]: unreadable or not JSON *)
  leaderboard_json : list LeaderboardEntry
}.

Record Memory : Type := mkMemory {
  gameResultsData : list GameResult;
  leaderboardData : list LeaderboardEntry
}.

Definition loadPersistedGames (d : Disk) : list GameResult :=
  match games_json d with
  | Some games => games
  | None => []
  end.

Definition saveGameResults (games : list GameResult) (d : Disk) : Disk :=
  {| games_json := Some (map json_game games);
     leaderboard_json := leaderboard_json d |}.

(** [aggregateGameResults()]: the value returned and the disk it leaves.
    The results are written to [games.json] (line 217) before they are
    returned; the early [return []] and the [catch] write nothing. *)
Definition aggregateGameResults (env : Retrieval) (d : Disk) : list GameResult * Disk :=
  match env with
  | RetrievalFailed => ([], d)
  | NoBackupFiles => ([], d)
  | Snapshots fileInfos =>
      match resolveSnapshots fileInfos with
      | Done gameResults => (gameResults, saveGameResults gameResults d)
      | Threw => ([], d)
      end
  end.

(** The callback of [newGames.forEach] in [updateAllResults]. *)
Definition same_key (newGame g : GameResult) : bool :=
  (startTime g =? startTime newGame) && String.eqb (game_map g) (game_map newGame).

Definition mergeGame (persistedGames : list GameResult) (newGame : GameResult)
  : list GameResult :=
  if existsb (same_key newGame) persistedGames
  then persistedGames
  else persistedGames ++ [newGame].

Definition mergeGames (persistedGames newGames : list GameResult) : list GameResult :=
  fold_left mergeGame newGames persistedGames.

(** [updateAllResults()].  The call of [aggregateLeaderboardFromGames]
    (line 286) comes last: in a cycle in which it throws
    ([throws_after_proto]), [games.json] and [gameResultsData] are as given
    here and the leaderboard is not replaced; the leaderboard given here is
    that of the cycles in which the call returns. *)
Definition updateAllResults (env : Retrieval) (st : Disk * Memory) : Disk * Memory :=
  let '(newGames, d) := aggregateGameResults env (fst st) in
  let persistedGames := mergeGames (loadPersistedGames d) newGames in
  let d := saveGameResults persistedGames d in
  let leaderboard := aggregateLeaderboardFromGames persistedGames in
  ({| games_json := games_json d; leaderboard_json := leaderboard |},
   {| gameResultsData := persistedGames; leaderboardData := leaderboard |}).

(** ** The session in progress *)

Record CurrentGame : Type := mkCurrentGame {
  cg_startTime : Z;
  currentSnapshotTime : Z;
  cg_duration : string;
  cg_map : string;
  currentScore : Score;
  currentRound : Js.num;
  cg_players : list string * list string
}.

(** [Math.max(a, b)]; the rounds come from [parseInt] and are never [null]. *)
Definition max2 (a b : Js.num) : Js.num :=
  match a, b with
  | Js.Num x, Js.Num y => Js.Num (Z.max x y)
  | _, _ => Js.NaN
  end.

Definition playerNames (team : option (list PlayerEntry)) : list string :=
  match team with
  | None => []
  | Some teamPlayers =>
      flat_map
        (fun p => if keeps_name p then [Js.or_else (pe_name p) ""] else [])
        teamPlayers
  end.

(** Lines 347-386 of [aggregateCurrentGame], at the clock value [now]
    (milliseconds); [None] is the [null] the function returns. *)
Definition currentGameOf (now : Z) (gameGroups : list (list FileInfo))
  : option CurrentGame :=
  match last_error gameGroups with
  | None => None
  | Some currentGroup0 =>
      match last_error currentGroup0 with
      | None => None
      | Some lastInfo =>
          let lastTimestamp := timestamp lastInfo in
          if 90 * 1000 <? now - lastTimestamp then None else
          let currentGroup := stable_sort by_timestamp currentGroup0 in
          match currentGroup, last_error currentGroup with
          | first :: others, Some currentSnapshot =>
              let startTime := timestamp first in
              let endTime := timestamp currentSnapshot in
              let durationSeconds := (endTime - startTime) / 1000 in
              Some {| cg_startTime := startTime;
                      currentSnapshotTime := endTime;
                      cg_duration := formatDuration durationSeconds;
                      cg_map := Js.or_else (sf_map (data currentSnapshot)) "Unknown";
                      currentScore := getFinalScore (data currentSnapshot);
                      currentRound := fold_left max2 (map round others) (round first);
                      cg_players :=
                        (playerNames (PlayersOnTeam1 (data currentSnapshot)),
                         playerNames (PlayersOnTeam2 (data currentSnapshot))) |}
          | _, _ => None
          end
      end
  end.

Definition aggregateCurrentGame (env : Retrieval) (now : Z) : option CurrentGame :=
  match env with
  | RetrievalFailed => None
  | NoBackupFiles => None
  | Snapshots fileInfos => currentGameOf now (groupFilesIntoGames fileInfos)
  end.

(** ** The writers of [games.json]

    Besides the update cycle (startup, the timer and [GET /check-files]),
    the handler of [GET /gameresults] calls [aggregateGameResults] on its
    own.  Each is taken as one step; the first start finds no [games.json]
    and creates it as ["[]"]. *)
Inductive Event : Type :=
| UpdateCycle (env : Retrieval)
| GameResultsRequest (env : Retrieval).

Definition handle (st : Disk * Memory) (ev : Event) : Disk * Memory :=
  match ev with
  | UpdateCycle env => updateAllResults env st
  | GameResultsRequest env => (snd (aggregateGameResults env (fst st)), snd st)
  end.

Definition first_start : Disk * Memory :=
  ({| games_json := Some []; leaderboard_json := [] |},
   {| gameResultsData := []; leaderboardData := [] |}).

Definition run (events : list Event) : Disk * Memory :=
  fold_left handle events first_start.

(** ** Notions used in the statements *)

(** A result that the discard rules are meant to keep out. *)
Definition degenerate (r : GameResult) : Prop :=
  duration r = "00:00:00"%string \/
  (team1 (finalScore r) = Js.Num 0 /\ team2 (finalScore r) = Js.Num 0).

(** Two results with the same natural key [(startTime, map)]. *)
Definition shares_key (a b : GameResult) : Prop :=
  startTime a = startTime b /\ game_map a = game_map b.

(** Sample data: a match already in [games.json], and the two snapshots of a
    later match on another map that the next poll finds. *)
Definition old_game : GameResult :=
  {| startTime := 0;
     endTime := 600000;
     duration := "00:10:00";
     game_map := "de_dust2";
     finalScore := {| team1 := Js.Num 13; team2 := Js.Num 7 |};
     players := {| players_team1 :=
                     [ {| name := "Alice"; kills := Js.Num 20; deaths := Js.Num 9 |} ];
                   players_team2 :=
                     [ {| name := "Bob"; kills := Js.Num 9; deaths := Js.Num 20 |} ] |};
     winner := ["Alice"%string];
     loser := ["Bob"%string] |}.

Definition snapshot (file : string) (t : Z) (r : Z) (m : string)
    (s1 s2 : string) : FileInfo :=
  {| fi_name := file;
     timestamp := t;
     round := Js.Num r;
     data := {| sf_map := Some m;
                FirstHalfScore := Some {| se_team1 := Some s1; se_team2 := Some s2 |};
                SecondHalfScore := None;
                OvertimeScore := None;
                PlayersOnTeam1 :=
                  Some [ {| pe_name := Some "Carol"%string;
                            pe_kills := Some "3"%string;
                            pe_deaths := Some "1"%string |} ];
                PlayersOnTeam2 :=
                  Some [ {| pe_name := Some "Dave"%string;
                            pe_kills := Some "1"%string;
                            pe_deaths := Some "3"%string |} ] |} |}.

Definition new_files : list FileInfo :=
  [ snapshot "backup_round01.txt" 1000000 1 "de_mirage" "0" "0";
    snapshot "backup_round02.txt" 1060000 2 "de_mirage" "1" "0" ].

(** Sample data: a match in which two players of the winning side bear the
    same name. *)
Definition twin_game : GameResult :=
  {| startTime := 0;
     endTime := 900000;
     duration := "00:15:00";
     game_map := "de_train";
     finalScore := {| team1 := Js.Num 2; team2 := Js.Num 1 |};
     players := {| players_team1 :=
                     [ {| name := "Bob"; kills := Js.Num 3; deaths := Js.Num 1 |};
                       {| name := "Bob"; kills := Js.Num 2; deaths := Js.Num 2 |} ];
                   players_team2 :=
                     [ {| name := "Eve"; kills := Js.Num 3; deaths := Js.Num 5 |} ] |};
     winner := ["Bob"%string; "Bob"%string];
     loser := ["Eve"%string] |}.

(** Sample data: a stored match with a player named ["__proto__"]. *)
Definition proto_game : GameResult :=
  {| startTime := 2000000;
     endTime := 2900000;
     duration := "00:15:00";
     game_map := "de_nuke";
     finalScore := {| team1 := Js.Num 5; team2 := Js.Num 13 |};
     players := {| players_team1 :=
                     [ {| name := "__proto__"; kills := Js.Num 4; deaths := Js.Num 9 |} ];
                   players_team2 :=
                     [ {| name := "Eve"; kills := Js.Num 9; deaths := Js.Num 4 |} ] |};
     winner := ["Eve"%string];
     loser := ["__proto__"%string] |}.


(** The check that a minutes or seconds field has two characters and is
    ["00"] only for 0. *)
Definition two_digits_ok (x : Z) : bool :=
  let s := Js.padStart0 2 (Js.toString x) in
  (String.length s =? 2)%nat && implb (String.eqb s "00") (x =? 0).

(** [x] is a nearest value to [k / d] at the precision of its own exponent
    (within half a unit in the last place), and that precision is at least
    53 bits: the relative error is at most 2^-53. *)
Definition rounded_quotient (k d : Z) (x : Double.t) : Prop :=
  let P := Double.pow2 (Double.exponent x) in
  let R := Double.pow2 (- Double.exponent x) in
  2 * Z.abs (Double.mantissa x * (d * P) - k * R) <= d * P /\
  (0 < k -> 2 ^ 52 * (d * P) <= k * R).

(** [n / 100] is the two-decimal value nearest to [x], the larger of the two
    when [x] lies half way: [n <= 100 * x + 1/2 < n + 1]. *)
Definition nearest_hundredth (x : Double.t) (n : Z) : Prop :=
  let P := Double.pow2 (Double.exponent x) in
  let R := Double.pow2 (- Double.exponent x) in
  2 * R * n <= 200 * Double.mantissa x * P + R < 2 * R * (n + 1).

(** The check that the two decimals of a [toFixed(2)] string read back. *)
Definition decimals_read_back (r : Z) : bool :=
  let s := Js.padStart0 2 (Js.toString r) in
  String.eqb (Js.digit_prefix s) s
  && (String.length s =? 2)%nat
  && (digits_value s =? r).

(** Sample data: three snapshots of one match on map ["X"], rounds 1 to 3,
    ending 2-1, with Alice (one kill, no death) on team 1. *)
Definition alice_snapshot (file : string) (t : Z) (r : Z) (s1 s2 : string) : FileInfo :=
  {| fi_name := file;
     timestamp := t;
     round := Js.Num r;
     data := {| sf_map := Some "X"%string;
                FirstHalfScore := Some {| se_team1 := Some s1; se_team2 := Some s2 |};
                SecondHalfScore := None;
                OvertimeScore := None;
                PlayersOnTeam1 :=
                  Some [ {| pe_name := Some "Alice"%string;
                            pe_kills := Some "1"%string;
                            pe_deaths := Some "0"%string |} ];
                PlayersOnTeam2 :=
                  Some [ {| pe_name := Some "Unknown"%string;
                            pe_kills := Some "0"%string;
                            pe_deaths := Some "1"%string |} ] |} |}.

Definition alice_files : list FileInfo :=
  [ alice_snapshot "backup_round03.txt" 120000 3 "2" "1";
    alice_snapshot "backup_round01.txt" 0 1 "1" "0";
    alice_snapshot "backup_round02.txt" 60000 2 "1" "1" ].

Definition disk_with (games : list GameResult) : Disk :=
  {| games_json := Some games; leaderboard_json := [] |}.

Definition empty_memory : Memory :=
  {| gameResultsData := []; leaderboardData := [] |}.

(** The roster entries of a game in the order the aggregator visits them,
    and those that bear a given name. *)
Definition roster (game : GameResult) : list PlayerStat :=
  players_team1 (players game) ++ players_team2 (players game).

Definition named (n : string) (l : list PlayerStat) : list PlayerStat :=
  filter (fun p => String.eqb (name p) n) l.

Definition appearances (n : string) (history : list GameResult) : list PlayerStat :=
  named n (flat_map roster history).

(** A history none of whose rosters names ["__proto__"]: the calls of
    [aggregateLeaderboardFromGames] on such histories leave
    [Object.prototype] as it is, and return. *)
Definition plain_names (history : list GameResult) : Prop :=
  Forall (fun p => name p <> "__proto__"%string) (flat_map roster history).

(** The roster of the team with the strictly higher final score, empty on a
    tie; a score that is not a number counts as 0. *)
Definition score_read (a : Js.num) : Z :=
  match a with Js.Num z => z | _ => 0 end.

Definition winners (game : GameResult) : list PlayerStat :=
  let s1 := score_read (team1 (finalScore game)) in
  let s2 := score_read (team2 (finalScore game)) in
  if s2 <? s1 then players_team1 (players game)
  else if s1 <? s2 then players_team2 (players game)
  else [].

Definition winning_appearances (n : string) (history : list GameResult)
  : list PlayerStat :=
  named n (flat_map winners history).


(** The running total [0 + a1 + a2 + ...] as the loop accumulates it. *)
Definition sum_num (l : list Js.num) : Js.num :=
  fold_left Js.add l (Js.Num 0).

(** The entry expected for a name, from its appearances and the ones on a
    winning roster. *)
Definition expected_tally (n : string) (apps won : list PlayerStat) : Tally :=
  {| entry_name := n;
     matchesPlayed := Z.of_nat (List.length apps);
     wins := Z.of_nat (List.length won);
     totalKills := sum_num (map kills apps);
     totalDeaths := sum_num (map deaths apps) |}.

(** The entry of its own that [tempLeaderboard] holds under [n]. *)
Definition lookup (n : string) (tl : list Tally) : option Tally :=
  find (fun e => String.eqb (entry_name e) n) tl.

(** Segmentation: the boundary condition between the first record of a group
    and a later record, a group none of whose later records meets it, and the
    first records of a sequence of groups. *)
Definition starts_new_group (first info : FileInfo) : Prop :=
  round info = Js.Num 1 \/ sf_map (data info) <> sf_map (data first).

Definition coherent (g : list FileInfo) : Prop :=
  match g with
  | [] => False
  | first :: rest => Forall (fun r => ~ starts_new_group first r) rest
  end.

Definition heads (gs : list (list FileInfo)) : list FileInfo :=
  flat_map (fun g => match g with x :: _ => [x] | [] => [] end) gs.

(** The invariant of the tallying loops: after the roster entries [A] have
    been credited with an appearance and the entries [W] with a win, no name
    is held twice and every name is looked up to its expected entry, which
    is none for an inherited name. *)
Definition summary (n : string) (A W : list PlayerStat) : option Tally :=
  if inherited n then None else
  match named n A with
  | [] => None
  | _ => Some (expected_tally n (named n A) (named n W))
  end.

Record tallies (tl : list Tally) (A W : list PlayerStat) : Prop := mkTallies {
  tallies_nodup : NoDup (map entry_name tl);
  tallies_lookup : forall n, lookup n tl = summary n A W;
  tallies_incl : incl W A
}.

Definition chronological : list FileInfo -> Prop :=
  StronglySorted (fun a b => timestamp a <= timestamp b).

(** ** Further notions *)

(** The natural key of a result. *)
Definition key (g : GameResult) : Z * string := (startTime g, game_map g).

(** A result none of whose numeric fields is [NaN]: what [JSON.stringify]
    writes for it reads back as the same result. *)
Definition num_ok (a : Js.num) : Prop := a <> Js.NaN.

Definition player_ok (p : PlayerStat) : Prop :=
  num_ok (kills p) /\ num_ok (deaths p).

Definition nan_free (g : GameResult) : Prop :=
  num_ok (team1 (finalScore g)) /\ num_ok (team2 (finalScore g)) /\
  Forall player_ok (players_team1 (players g)) /\
  Forall player_ok (players_team2 (players g)).

(** A poll none of whose snapshots lists a player named ["__proto__"]. *)
Definition plain_team (team : option (list PlayerEntry)) : Prop :=
  match team with
  | Some teamPlayers =>
      Forall (fun p => pe_name p <> Some "__proto__"%string) teamPlayers
  | None => True
  end.

Definition plain_poll (env : Retrieval) : Prop :=
  match env with
  | Snapshots fileInfos =>
      Forall (fun f => plain_team (PlayersOnTeam1 (data f)) /\
                       plain_team (PlayersOnTeam2 (data f))) fileInfos
  | _ => True
  end.

Definition poll_of (ev : Event) : Retrieval :=
  match ev with
  | UpdateCycle env => env
  | GameResultsRequest env => env
  end.

(** A score component whose fields, when present, are decimal numerals, and
    the numbers it stands for. *)
Definition numeral_entry (c : option Z * option Z) : ScoreEntry :=
  {| se_team1 := option_map Js.toString (fst c);
     se_team2 := option_map Js.toString (snd c) |}.

Definition opt_value (a : option Z) : Z :=
  match a with Some z => z | None => 0 end.

Definition component_value (c : option (option Z * option Z)) : Z * Z :=
  match c with
  | Some (a, b) => (opt_value a, opt_value b)
  | None => (0, 0)
  end.

(** The score components a save file carries. *)
Definition components (saveFile : SaveFile) : list ScoreEntry :=
  flat_map (fun c => match c with Some e => [e] | None => [] end)
    [FirstHalfScore saveFile; SecondHalfScore saveFile; OvertimeScore saveFile].

(** A name the roster loops keep. *)
Definition proper_name (n : string) : Prop :=
  n <> ""%string /\ n <> "Unknown"%string.

(** [a]'s [kd] is a number at least as large as [b]'s. *)
Definition kd_ge (a b : LeaderboardEntry) : Prop :=
  exists na pa nb pb,
    parseFloat_kd (kd a) = Some (na, pa) /\
    parseFloat_kd (kd b) = Some (nb, pb) /\
    nb * 10 ^ Z.of_nat pa <= na * 10 ^ Z.of_nat pb.

Definition kd_numeric (e : LeaderboardEntry) : Prop :=
  exists n p, parseFloat_kd (kd e) = Some (n, p).

(** * Properties *)

(** ** Numerals *)

Module JsFacts.
Import Js.

Lemma digit_prefix_numeral (u : Decimal.uint) :
  digit_prefix (NilEmpty.string_of_uint u) = NilEmpty.string_of_uint u.
Proof.
  induction u; simpl; try rewrite IHu; reflexivity.
Qed.

Lemma numeral_nonempty (u : Decimal.uint) :
  u <> Decimal.Nil -> NilEmpty.string_of_uint u <> EmptyString.
Proof.
  destruct u; simpl; congruence.
Qed.

Lemma read_digits_numeral (u : Decimal.uint) :
  u <> Decimal.Nil ->
  read_digits (NilEmpty.string_of_uint u) = Num (Z.of_N (N.of_uint u)).
Proof.
  intros Hu. unfold read_digits.
  rewrite digit_prefix_numeral.
  destruct (NilEmpty.string_of_uint u) eqn:E.
  - now apply numeral_nonempty in E.
  - rewrite <- E, NilEmpty.usu. reflexivity.
Qed.

Lemma to_uint_nonnil (n : N) : N.to_uint n <> Decimal.Nil.
Proof.
  destruct n; simpl; [discriminate | apply DecimalPos.Unsigned.to_uint_nonnil].
Qed.

Lemma numeral_head (u : Decimal.uint) :
  u <> Decimal.Nil ->
  exists c r, NilEmpty.string_of_uint u = String c r /\
              is_digit c = true.
Proof.
  destruct u; intros H; try congruence; simpl; eexists _, _; split;
    reflexivity.
Qed.

Lemma digit_not_special (c : ascii) :
  is_digit c = true ->
  is_space c = false /\ c <> "-"%char /\ c <> "+"%char.
Proof.
  unfold is_digit, is_space. intros H.
  apply andb_true_iff in H as [H1 H2].
  apply N.leb_le in H1. apply N.leb_le in H2.
  repeat split.
  - repeat (apply orb_false_iff; split); apply N.eqb_neq; lia.
  - intros ->. change (N_of_ascii "-") with 45%N in H1. lia.
  - intros ->. change (N_of_ascii "+") with 43%N in H1. lia.
Qed.

Lemma parseInt_digits (s : string) (c : ascii) (r : string) :
  s = String c r -> is_digit c = true -> parseInt s = read_digits s.
Proof.
  intros -> Hc. destruct (digit_not_special c Hc) as (Hs & Hm & Hp).
  unfold parseInt. simpl skip_spaces. rewrite Hs.
  destruct c as [b0 b1 b2 b3 b4 b5 b6 b7].
  destruct b0, b1, b2, b3, b4, b5, b6, b7; try reflexivity;
    exfalso; (apply Hm; reflexivity) || (apply Hp; reflexivity).
Qed.

Lemma parseInt_numeral (n : N) :
  parseInt (NilZero.string_of_uint (N.to_uint n)) = Num (Z.of_N n).
Proof.
  pose proof (to_uint_nonnil n) as Hn.
  assert (E : NilZero.string_of_uint (N.to_uint n)
              = NilEmpty.string_of_uint (N.to_uint n)).
  { unfold NilZero.string_of_uint. destruct (N.to_uint n); congruence. }
  rewrite E.
  destruct (numeral_head _ Hn) as (c & r & Hs & Hc).
  rewrite (parseInt_digits _ c r Hs Hc), read_digits_numeral by assumption.
  now rewrite DecimalN.Unsigned.of_to.
Qed.

(** Reading back the numeral of an integer gives the integer. *)
Lemma parseInt_toString (z : Z) : parseInt (toString z) = Num z.
Proof.
  unfold toString. destruct (Z.ltb_spec z 0) as [Hneg | Hpos].
  - pose proof (to_uint_nonnil (Z.to_N (- z))) as Hn.
    assert (E : NilZero.string_of_uint (N.to_uint (Z.to_N (- z)))
                = NilEmpty.string_of_uint (N.to_uint (Z.to_N (- z)))).
    { unfold NilZero.string_of_uint.
      destruct (N.to_uint (Z.to_N (- z))); congruence. }
    rewrite E. unfold parseInt. simpl skip_spaces.
    change (is_space "-") with false. cbv iota.
    rewrite read_digits_numeral by assumption.
    rewrite DecimalN.Unsigned.of_to. simpl. f_equal. lia.
  - rewrite parseInt_numeral. f_equal. lia.
Qed.

Lemma parseInt_or_zero_spec (a : num) :
  parseInt_or_zero a = match a with Num z => Num z | _ => Num 0 end.
Proof.
  destruct a as [z | |]; try reflexivity.
  unfold parseInt_or_zero, truthy.
  destruct (Z.eqb_spec z 0) as [-> | Hz]; simpl.
  - reflexivity.
  - apply parseInt_toString.
Qed.

End JsFacts.

(** ** Durations *)

Lemma string_length_append (a b : string) :
  String.length (a ++ b) = (String.length a + String.length b)%nat.
Proof. induction a as [| c r IH]; simpl; [reflexivity | now rewrite IH]. Qed.

Lemma zeros_length (n : nat) : String.length (Js.zeros n) = n.
Proof. induction n as [| k IH]; simpl; [reflexivity | now rewrite IH]. Qed.

Lemma padStart0_length (n : nat) (s : string) :
  (n <= String.length (Js.padStart0 n s))%nat.
Proof.
  unfold Js.padStart0. rewrite string_length_append, zeros_length. lia.
Qed.

Lemma two_digits_ok_all (x : Z) : 0 <= x < 60 -> two_digits_ok x = true.
Proof.
  intros Hx.
  assert (H : forallb two_digits_ok (map Z.of_nat (seq 0 60)) = true)
    by (vm_compute; reflexivity).
  rewrite forallb_forall in H. apply H.
  apply in_map_iff. exists (Z.to_nat x). split; [lia |].
  apply in_seq. lia.
Qed.

Lemma padded_zero (h : Z) : Js.padStart0 2 (Js.toString h) = "00"%string -> h = 0.
Proof.
  pose proof (JsFacts.parseInt_toString h) as P.
  unfold Js.padStart0.
  destruct (Js.toString h) as [| a [| b r]]; simpl; intros E.
  - discriminate P.
  - injection E as ->. vm_compute in P. congruence.
  - rewrite E in P. vm_compute in P. congruence.
Qed.

(** For a span that is not negative, the duration reads ["00:00:00"]
    exactly when the span is shorter than one second. *)
Lemma formatDuration_zero (seconds : Z) :
  0 <= seconds -> (formatDuration seconds = "00:00:00"%string <-> seconds = 0).
Proof.
  intros Hs. split; [| intros ->; reflexivity].
  unfold formatDuration. rewrite JsFacts.parseInt_toString.
  assert (Hm : 0 <= Z.rem seconds 3600 / 60 < 60).
  { rewrite Z.rem_mod_nonneg by lia.
    pose proof (Z.mod_pos_bound seconds 3600 ltac:(lia)).
    split; [apply Z.div_pos; lia | apply Z.div_lt_upper_bound; lia]. }
  assert (Hc : 0 <= Z.rem seconds 60 < 60).
  { rewrite Z.rem_mod_nonneg by lia. apply Z.mod_pos_bound. lia. }
  pose proof (two_digits_ok_all _ Hm) as Bok.
  pose proof (two_digits_ok_all _ Hc) as Cok.
  pose proof (padStart0_length 2 (Js.toString (seconds / 3600))) as Alen.
  pose proof (padded_zero (seconds / 3600)) as Azero.
  unfold two_digits_ok in Bok, Cok.
  set (A := Js.padStart0 2 (Js.toString (seconds / 3600))) in *.
  set (B := Js.padStart0 2 (Js.toString (Z.rem seconds 3600 / 60))) in *.
  set (C := Js.padStart0 2 (Js.toString (Z.rem seconds 60))) in *.
  apply andb_true_iff in Bok as [Blen Bzero].
  apply andb_true_iff in Cok as [Clen Czero].
  apply Nat.eqb_eq in Blen. apply Nat.eqb_eq in Clen.
  intros E.
  assert (HlenA : String.length A = 2%nat).
  { apply (f_equal String.length) in E.
    rewrite !string_length_append, Blen, Clen in E. simpl in E. lia. }
  destruct A as [| a1 [| a2 [| a3 A']]]; try discriminate HlenA.
  destruct B as [| b1 [| b2 [| b3 B']]]; try discriminate Blen.
  destruct C as [| c1 [| c2 [| c3 C']]]; try discriminate Clen.
  simpl in E. injection E as -> -> -> -> -> ->.
  simpl in Bzero, Czero.
  apply Z.eqb_eq in Bzero. apply Z.eqb_eq in Czero.
  specialize (Azero eq_refl).
  rewrite Z.rem_mod_nonneg in Bzero, Czero by lia.
  pose proof (Z.div_mod seconds 3600 ltac:(lia)).
  pose proof (Z.div_mod (seconds mod 3600) 60 ltac:(lia)).
  pose proof (Z.div_mod seconds 60 ltac:(lia)).
  pose proof (Z.mod_pos_bound seconds 3600 ltac:(lia)).
  pose proof (Z.mod_pos_bound (seconds mod 3600) 60 ltac:(lia)).
  lia.
Qed.

(** ** The stable sort *)

Section SortFacts.
Context {A : Type} (le : A -> A -> bool).

Lemma insert_sorted_perm (x : A) (l : list A) :
  Permutation (insert_sorted le x l) (x :: l).
Proof.
  induction l as [| y r IH]; simpl.
  - reflexivity.
  - destruct (le x y).
    + reflexivity.
    + rewrite IH. apply perm_swap.
Qed.

Lemma stable_sort_perm (l : list A) : Permutation (stable_sort le l) l.
Proof.
  induction l as [| x r IH]; simpl.
  - reflexivity.
  - rewrite insert_sorted_perm. now apply perm_skip.
Qed.

Lemma stable_sort_nil_iff (l : list A) : stable_sort le l = [] <-> l = [].
Proof.
  split; intros H.
  - apply Permutation_nil. rewrite <- H. apply stable_sort_perm.
  - subst. reflexivity.
Qed.

(** A list already in order is left as it is. *)
Lemma stable_sort_sorted (l : list A) :
  StronglySorted (fun a b => le a b = true) l -> stable_sort le l = l.
Proof.
  induction 1 as [| x r Hs IH Hx]; simpl.
  - reflexivity.
  - rewrite IH. destruct r as [| y r']; simpl.
    + reflexivity.
    + inversion Hx as [| ? ? Hxy _]; subst. now rewrite Hxy.
Qed.
End SortFacts.

Lemma insert_by_timestamp_sorted (x : FileInfo) (l : list FileInfo) :
  chronological l -> chronological (insert_sorted by_timestamp x l).
Proof.
  unfold chronological.
  induction 1 as [| y r Hs IH Hy]; simpl.
  - repeat constructor.
  - unfold by_timestamp at 1. destruct (Z.leb_spec (timestamp x) (timestamp y)) as [Hle | Hgt].
    + constructor.
      * now constructor.
      * constructor; [assumption |].
        eapply Forall_impl; [| exact Hy]. simpl. intros; lia.
    + constructor; [exact IH |].
      eapply Permutation_Forall.
      * symmetry. apply insert_sorted_perm.
      * constructor; [lia | assumption].
Qed.

Lemma sort_by_timestamp_sorted (l : list FileInfo) :
  chronological (stable_sort by_timestamp l).
Proof.
  induction l as [| x r IH]; simpl.
  - constructor.
  - now apply insert_by_timestamp_sorted.
Qed.

Lemma chronological_le_bool (l : list FileInfo) :
  chronological l -> StronglySorted (fun a b => by_timestamp a b = true) l.
Proof.
  induction 1 as [| x r Hs IH Hx]; constructor; try assumption.
  eapply Forall_impl; [| exact Hx]. intros a Ha. now apply Z.leb_le.
Qed.

Lemma chronological_app (l1 l2 : list FileInfo) :
  chronological (l1 ++ l2) -> chronological l1 /\ chronological l2.
Proof.
  unfold chronological. induction l1 as [| x r IH]; simpl; intros H.
  - split; [constructor | assumption].
  - inversion H as [| ? ? Hs Hx]; subst.
    destruct (IH Hs) as [H1 H2]. split; [| assumption].
    constructor; [assumption |].
    apply Forall_app in Hx. tauto.
Qed.

(** ** Segmentation *)

Lemma segment_step_cases (groups : list (list FileInfo)) (cur : list FileInfo)
    (info : FileInfo) :
  (cur <> [] /\ segment_step (groups, cur) info = (groups ++ [cur], [info])) \/
  segment_step (groups, cur) info = (groups, cur ++ [info]).
Proof.
  unfold segment_step.
  destruct cur as [| first rest].
  - right. rewrite andb_false_r. reflexivity.
  - simpl nonempty. rewrite andb_true_r. cbv beta iota.
    destruct (Js.strict_eq (round info) (Js.Num 1)).
    + left. split; [discriminate | reflexivity].
    + simpl. destruct (map_differs _ _).
      * left. split; [discriminate | reflexivity].
      * right. reflexivity.
Qed.

(** The groups closed so far followed by the open group are always the
    records already consumed, in order; no closed group is empty. *)
Lemma segment_fold_invariant (l : list FileInfo) :
  forall groups cur,
    Forall (fun g => g <> []) groups ->
    let st := fold_left segment_step l (groups, cur) in
    List.concat (fst st) ++ snd st = List.concat groups ++ cur ++ l /\
    Forall (fun g => g <> []) (fst st).
Proof.
  induction l as [| info r IH]; intros groups cur Hne; cbn [fold_left].
  - simpl. rewrite app_nil_r. auto.
  - destruct (segment_step_cases groups cur info) as [[Hcur E] | E]; rewrite E.
    + destruct (IH (groups ++ [cur]) [info]) as [H1 H2].
      { apply Forall_app. split; [assumption | repeat constructor; assumption]. }
      split; [| exact H2].
      rewrite H1, concat_app. simpl. rewrite app_nil_r, <- !app_assoc. reflexivity.
    + destruct (IH groups (cur ++ [info]) Hne) as [H1 H2].
      split; [| exact H2].
      rewrite H1, <- !app_assoc. reflexivity.
Qed.

Lemma segment_finish_spec (groups : list (list FileInfo)) (cur : list FileInfo) :
  Forall (fun g => g <> []) groups ->
  List.concat (segment_finish (groups, cur)) = List.concat groups ++ cur /\
  Forall (fun g => g <> []) (segment_finish (groups, cur)).
Proof.
  intros Hne. unfold segment_finish. destruct cur as [| x r]; simpl.
  - rewrite app_nil_r. auto.
  - rewrite concat_app. simpl. rewrite app_nil_r. split; [reflexivity |].
    apply Forall_app. split; [assumption | repeat constructor; discriminate].
Qed.

Lemma groups_concat (fileInfos : list FileInfo) :
  List.concat (groupFilesIntoGames fileInfos) = stable_sort by_timestamp fileInfos.
Proof.
  unfold groupFilesIntoGames.
  pose proof (segment_fold_invariant (stable_sort by_timestamp fileInfos) [] []
                (Forall_nil _)) as [H1 H2].
  destruct (fold_left segment_step _ _) as [groups cur]; cbn [fst snd] in *.
  destruct (segment_finish_spec groups cur H2) as [H3 _].
  rewrite H3, H1. reflexivity.
Qed.

Lemma groups_nonempty (fileInfos : list FileInfo) :
  Forall (fun g => g <> []) (groupFilesIntoGames fileInfos).
Proof.
  unfold groupFilesIntoGames.
  pose proof (segment_fold_invariant (stable_sort by_timestamp fileInfos) [] []
                (Forall_nil _)) as [H1 H2].
  destruct (fold_left segment_step _ _) as [groups cur]; cbn [fst snd] in *.
  now destruct (segment_finish_spec groups cur H2).
Qed.

Lemma concat_member {A : Type} (ls : list (list A)) (g : list A) :
  In g ls -> exists before after, List.concat ls = before ++ g ++ after.
Proof.
  induction ls as [| h t IH]; simpl; intros Hin; [contradiction |].
  destruct Hin as [-> | Hin].
  - exists [], (List.concat t). reflexivity.
  - destruct (IH Hin) as (b & a & E). exists (h ++ b), a.
    rewrite E, <- app_assoc. reflexivity.
Qed.

Lemma groups_chronological (fileInfos : list FileInfo) :
  Forall chronological (groupFilesIntoGames fileInfos).
Proof.
  apply Forall_forall. intros g Hg.
  destruct (concat_member _ _ Hg) as (b & a & E).
  pose proof (sort_by_timestamp_sorted fileInfos) as Hs.
  rewrite <- groups_concat, E in Hs.
  apply chronological_app in Hs as [_ Hs].
  now apply chronological_app in Hs as [Hs _].
Qed.

(** The re-sort that both consumers apply to a group leaves it as it is. *)
Lemma groups_resort (fileInfos : list FileInfo) (g : list FileInfo) :
  In g (groupFilesIntoGames fileInfos) -> stable_sort by_timestamp g = g.
Proof.
  intros Hg. apply stable_sort_sorted, chronological_le_bool.
  pose proof (groups_chronological fileInfos) as H.
  rewrite Forall_forall in H. now apply H.
Qed.

(** C3. The groups returned by [groupFilesIntoGames] partition the input:
    laid end to end they are a rearrangement of the input records (each
    record occurrence falls in exactly one group, none is dropped or
    repeated), namely the input in stable timestamp order, and inside every
    group timestamps ascend. *)
Theorem groupFilesIntoGames_partition (fileInfos : list FileInfo) :
  Permutation (List.concat (groupFilesIntoGames fileInfos)) fileInfos /\
  List.concat (groupFilesIntoGames fileInfos) = stable_sort by_timestamp fileInfos /\
  Forall (StronglySorted (fun a b => timestamp a <= timestamp b))
         (groupFilesIntoGames fileInfos).
Proof.
  split; [| split].
  - rewrite groups_concat. apply stable_sort_perm.
  - apply groups_concat.
  - apply groups_chronological.
Qed.

Lemma map_differs_true (a b : option string) : map_differs a b = true <-> a <> b.
Proof.
  destruct a as [x |], b as [y |]; simpl; try (split; congruence).
  destruct (String.eqb_spec x y); simpl; split; congruence.
Qed.

Lemma map_differs_false (a b : option string) : map_differs a b = false <-> a = b.
Proof.
  destruct a as [x |], b as [y |]; simpl; try (split; congruence).
  destruct (String.eqb_spec x y); simpl; split; congruence.
Qed.

Lemma strict_eq_one (a : Js.num) : Js.strict_eq a (Js.Num 1) = true <-> a = Js.Num 1.
Proof.
  destruct a as [z | |]; simpl; try (split; congruence).
  rewrite Z.eqb_eq. split; congruence.
Qed.

Lemma starts_new_group_dec (first info : FileInfo) :
  {starts_new_group first info} + {~ starts_new_group first info}.
Proof.
  unfold starts_new_group.
  destruct (Js.strict_eq (round info) (Js.Num 1)) eqn:Er.
  - left. left. now apply strict_eq_one.
  - destruct (map_differs (sf_map (data info)) (sf_map (data first))) eqn:Em.
    + left. right. now apply map_differs_true.
    + right. intros [H | H].
      * apply strict_eq_one in H. congruence.
      * apply map_differs_false in Em. contradiction.
Qed.

Lemma segment_step_open (groups : list (list FileInfo))
    (first : FileInfo) (rest : list FileInfo) (info : FileInfo) :
  (starts_new_group first info ->
   segment_step (groups, first :: rest) info
   = (groups ++ [first :: rest], [info])) /\
  (~ starts_new_group first info ->
   segment_step (groups, first :: rest) info
   = (groups, (first :: rest) ++ [info])).
Proof.
  unfold segment_step, starts_new_group. simpl nonempty.
  rewrite andb_true_r. cbv beta iota. split.
  - intros H.
    destruct (Js.strict_eq (round info) (Js.Num 1)) eqn:Er; [reflexivity |].
    destruct H as [H | H].
    + apply strict_eq_one in H. congruence.
    + apply map_differs_true in H. simpl. now rewrite H.
  - intros H.
    destruct (Js.strict_eq (round info) (Js.Num 1)) eqn:Er.
    + exfalso. apply H. left. now apply strict_eq_one.
    + destruct (map_differs (sf_map (data info)) (sf_map (data first))) eqn:Em.
      * exfalso. apply H. right. now apply map_differs_true.
      * reflexivity.
Qed.

Lemma Sorted_snoc {A : Type} (R : A -> A -> Prop) (l : list A) (a b : A) :
  Sorted R (l ++ [a]) -> R a b -> Sorted R (l ++ [a; b]).
Proof.
  induction l as [| x r IH]; simpl; intros Hs Hab.
  - repeat constructor. assumption.
  - inversion Hs as [| ? ? Hr Hx]; subst. constructor.
    + now apply IH.
    + destruct r; simpl in *; inversion Hx; subst; now constructor.
Qed.

Lemma heads_app (gs1 gs2 : list (list FileInfo)) :
  heads (gs1 ++ gs2) = heads gs1 ++ heads gs2.
Proof. apply flat_map_app. Qed.

Lemma segment_step_first (groups : list (list FileInfo)) (info : FileInfo) :
  segment_step (groups, []) info = (groups, [info]).
Proof. unfold segment_step. now rewrite andb_false_r. Qed.

(** What holds of the closed groups and the open group all along the loop,
    once the open group has its first record. *)
Lemma segment_fold_shape (l : list FileInfo) :
  forall groups cur,
    Forall coherent groups ->
    coherent cur ->
    Sorted starts_new_group (heads (groups ++ [cur])) ->
    let st := fold_left segment_step l (groups, cur) in
    Forall coherent (fst st) /\
    coherent (snd st) /\
    Sorted starts_new_group (heads (fst st ++ [snd st])).
Proof.
  induction l as [| info r IH]; intros groups cur Hg Hcur Hsep;
    cbn [fold_left].
  - cbn [fst snd]. auto.
  - destruct cur as [| first rest]; [contradiction |].
    destruct (segment_step_open groups first rest info) as [Hnew Hjoin].
    destruct (starts_new_group_dec first info) as [Hb | Hb].
    + rewrite (Hnew Hb). apply IH.
      * apply Forall_app. split; [assumption | now repeat constructor].
      * constructor.
      * rewrite <- app_assoc. rewrite heads_app in *. simpl in *.
        now apply Sorted_snoc.
    + rewrite (Hjoin Hb). apply IH.
      * assumption.
      * simpl. apply Forall_app. split; [assumption | now repeat constructor].
      * rewrite heads_app in *. simpl in *. assumption.
Qed.

Lemma segment_fold_started (info : FileInfo) (r : list FileInfo) :
  let st := fold_left segment_step (info :: r) ([], []) in
  Forall coherent (fst st) /\
  coherent (snd st) /\
  Sorted starts_new_group (heads (fst st ++ [snd st])).
Proof.
  cbn [fold_left]. rewrite segment_step_first.
  apply segment_fold_shape.
  - constructor.
  - constructor.
  - repeat constructor.
Qed.

Lemma groups_shape (fileInfos : list FileInfo) :
  Forall coherent (groupFilesIntoGames fileInfos) /\
  Sorted starts_new_group (heads (groupFilesIntoGames fileInfos)).
Proof.
  unfold groupFilesIntoGames.
  destruct (stable_sort by_timestamp fileInfos) as [| info r].
  - split; constructor.
  - destruct (segment_fold_started info r) as (H1 & H2 & H3).
    destruct (fold_left segment_step _ _) as [groups cur]; cbn [fst snd] in *.
    unfold segment_finish. destruct cur as [| x t]; [contradiction |].
    cbn [nonempty]. split; [| assumption].
    apply Forall_app. split; [assumption | now repeat constructor].
Qed.

Lemma open_group_nonempty (pre : list FileInfo) :
  pre <> [] -> snd (fold_left segment_step pre ([], [])) <> [].
Proof.
  destruct pre as [| info r]; [congruence |]. intros _ Hs.
  destruct (segment_fold_started info r) as (_ & H2 & _).
  rewrite Hs in H2. contradiction.
Qed.

(** C4. While the open group is non-empty, a record whose round is exactly 1
    closes it and opens a new one, whatever its map; otherwise a record whose
    map differs from that of the first record of the open group does the
    same, whatever its round; otherwise the record joins the open group.
    Apart from the first record consumed this is every record; so in the
    output no record but the first of a group has round 1 or a map other
    than that of the first, and each group after the first begins with a
    record that has round 1 or a map other than that of the first record of
    the group before. *)
Theorem segment_step_rule :
  (forall groups first rest info,
      let currentGame := first :: rest in
      (round info = Js.Num 1 ->
       segment_step (groups, currentGame) info
       = (groups ++ [currentGame], [info])) /\
      (round info <> Js.Num 1 ->
       sf_map (data info) <> sf_map (data first) ->
       segment_step (groups, currentGame) info
       = (groups ++ [currentGame], [info])) /\
      (round info <> Js.Num 1 ->
       sf_map (data info) = sf_map (data first) ->
       segment_step (groups, currentGame) info
       = (groups, currentGame ++ [info]))) /\
  (forall pre info,
      fold_left segment_step (pre ++ [info]) ([], [])
      = segment_step (fold_left segment_step pre ([], [])) info) /\
  (forall pre, pre <> [] -> snd (fold_left segment_step pre ([], [])) <> []) /\
  (forall fileInfos,
      Forall coherent (groupFilesIntoGames fileInfos) /\
      Sorted starts_new_group (heads (groupFilesIntoGames fileInfos))).
Proof.
  split; [| split; [| split]].
  - intros groups first rest info currentGame.
    destruct (segment_step_open groups first rest info) as [Hnew Hjoin].
    unfold currentGame. repeat split.
    + intros H. apply Hnew. now left.
    + intros _ H. apply Hnew. now right.
    + intros Hr Hm. apply Hjoin. intros [H | H]; contradiction.
  - intros pre info. now rewrite fold_left_app.
  - exact open_group_nonempty.
  - exact groups_shape.
Qed.

(** ** Access to the ends of a group *)

Lemma last_error_some {A : Type} (l : list A) :
  l <> [] -> exists x, last_error l = Some x.
Proof.
  intros Hl. unfold last_error.
  destruct (nth_error l (List.length l - 1)) eqn:E; [eauto |].
  apply nth_error_None in E. destruct l; [congruence | simpl in E; lia].
Qed.

Lemma first_some {A : Type} (l : list A) :
  l <> [] -> exists x, nth_error l 0 = Some x.
Proof. destruct l; [congruence | simpl; eauto]. Qed.

(** What [resolveGroup] computes once both ends of the group are read. *)
Lemma resolveGroup_defined (group : list FileInfo) :
  group <> [] -> exists r, resolveGroup group = Done r.
Proof.
  intros Hg. unfold resolveGroup.
  assert (Hs : stable_sort by_timestamp group <> []).
  { intros E. now apply stable_sort_nil_iff in E. }
  destruct (first_some _ Hs) as [f ->].
  destruct (last_error_some _ Hs) as [l ->].
  destruct (String.eqb _ _); [eauto |].
  destruct (_ && _); [eauto |].
  destruct (decide _ _). eauto.
Qed.

Lemma resolveGroups_defined (gameGroups : list (list FileInfo)) :
  Forall (fun g => g <> []) gameGroups ->
  exists rs, resolveGroups gameGroups = Done rs.
Proof.
  induction 1 as [| g gs Hg _ IH]; simpl.
  - eauto.
  - destruct (resolveGroup_defined g Hg) as [r ->].
    destruct IH as [rs ->]. eauto.
Qed.

(** C10. The empty input yields no group, and no group that
    [groupFilesIntoGames] emits is empty; so in the result resolver
    [group[0]] and [group[group.length - 1]] are defined after the re-sort
    and no group makes it throw, and in the current-session detector the
    last record of a group is defined. *)
Theorem groups_are_nonempty (fileInfos : list FileInfo) :
  groupFilesIntoGames [] = [] /\
  Forall (fun g =>
            g <> [] /\
            (exists first finalSnapshot,
                nth_error (stable_sort by_timestamp g) 0 = Some first /\
                last_error (stable_sort by_timestamp g) = Some finalSnapshot) /\
            (exists lastInfo, last_error g = Some lastInfo) /\
            (exists r, resolveGroup g = Done r))
         (groupFilesIntoGames fileInfos) /\
  (exists gameResults, resolveSnapshots fileInfos = Done gameResults).
Proof.
  split; [reflexivity | split].
  - eapply Forall_impl; [| apply groups_nonempty]. simpl. intros g Hg.
    assert (Hs : stable_sort by_timestamp g <> []).
    { intros E. now apply stable_sort_nil_iff in E. }
    repeat split.
    + assumption.
    + destruct (first_some _ Hs) as [f Hf].
      destruct (last_error_some _ Hs) as [l Hl]. eauto.
    + now apply last_error_some.
    + now apply resolveGroup_defined.
  - apply resolveGroups_defined, groups_nonempty.
Qed.

(** ** The result resolver *)

Lemma resolveGroup_emits (group : list FileInfo) (r : GameResult) :
  resolveGroup group = Done (Some r) ->
  exists first finalSnapshot,
    nth_error (stable_sort by_timestamp group) 0 = Some first /\
    last_error (stable_sort by_timestamp group) = Some finalSnapshot /\
    duration r = formatDuration ((timestamp finalSnapshot - timestamp first) / 1000) /\
    duration r <> "00:00:00"%string /\
    finalScore r = getFinalScore (data finalSnapshot) /\
    Js.strict_eq (team1 (finalScore r)) (Js.Num 0) &&
      Js.strict_eq (team2 (finalScore r)) (Js.Num 0) = false /\
    players r =
      {| players_team1 := extractPlayers (PlayersOnTeam1 (data finalSnapshot));
         players_team2 := extractPlayers (PlayersOnTeam2 (data finalSnapshot)) |} /\
    (winner r, loser r) =
      (names_or_empty (fst (decide (finalScore r) (players r))),
       names_or_empty (snd (decide (finalScore r) (players r)))).
Proof.
  unfold resolveGroup.
  destruct (nth_error _ 0) as [first |]; [| discriminate].
  destruct (last_error _) as [final |]; [| discriminate].
  destruct (String.eqb_spec
              (formatDuration ((timestamp final - timestamp first) / 1000))
              "00:00:00") as [| Hd]; [discriminate |].
  destruct (_ && _) eqn:Hz; [discriminate |].
  destruct (decide _ _) as [w l] eqn:Hw.
  intros E. injection E as <-. simpl.
  exists first, final. rewrite Hw. simpl. repeat split; assumption.
Qed.

Lemma strict_eq_zero (a : Js.num) : Js.strict_eq a (Js.Num 0) = true <-> a = Js.Num 0.
Proof.
  destruct a as [z | |]; simpl; try (split; congruence).
  rewrite Z.eqb_eq. split; congruence.
Qed.

Lemma resolveGroup_not_degenerate (group : list FileInfo) (r : GameResult) :
  resolveGroup group = Done (Some r) -> ~ degenerate r.
Proof.
  intros H. apply resolveGroup_emits in H
    as (f & l & _ & _ & _ & Hd & _ & Hz & _).
  intros [Hdur | [H1 H2]]; [contradiction |].
  rewrite H1, H2 in Hz. discriminate.
Qed.

Lemma sorted_ends (group : list FileInfo) (first finalSnapshot : FileInfo) :
  nth_error (stable_sort by_timestamp group) 0 = Some first ->
  last_error (stable_sort by_timestamp group) = Some finalSnapshot ->
  timestamp first <= timestamp finalSnapshot.
Proof.
  intros Hf Hl. pose proof (sort_by_timestamp_sorted group) as Hs.
  unfold last_error in Hl. apply nth_error_In in Hl.
  destruct (stable_sort by_timestamp group) as [| x r]; [discriminate |].
  injection Hf as ->. inversion Hs as [| ? ? _ Hx]; subst.
  destruct Hl as [<- | Hin]; [lia |].
  rewrite Forall_forall in Hx. now apply Hx.
Qed.

(** A group yields no result exactly when it spans less than one second or
    its last snapshot reads 0-0. *)
Lemma resolveGroup_none_iff (group : list FileInfo) (first finalSnapshot : FileInfo) :
  nth_error (stable_sort by_timestamp group) 0 = Some first ->
  last_error (stable_sort by_timestamp group) = Some finalSnapshot ->
  (resolveGroup group = Done None <->
   timestamp finalSnapshot - timestamp first < 1000 \/
   (team1 (getFinalScore (data finalSnapshot)) = Js.Num 0 /\
    team2 (getFinalScore (data finalSnapshot)) = Js.Num 0)).
Proof.
  intros Hf Hl. pose proof (sorted_ends _ _ _ Hf Hl) as Hle.
  assert (Hq : 0 <= (timestamp finalSnapshot - timestamp first) / 1000)
    by (apply Z.div_pos; lia).
  pose proof (formatDuration_zero _ Hq) as Hz.
  assert (Hshort : (timestamp finalSnapshot - timestamp first) / 1000 = 0 <->
                   timestamp finalSnapshot - timestamp first < 1000).
  { split; intros H.
    - pose proof (Z.div_mod (timestamp finalSnapshot - timestamp first) 1000
                    ltac:(lia)).
      pose proof (Z.mod_pos_bound (timestamp finalSnapshot - timestamp first) 1000
                    ltac:(lia)). lia.
    - apply Z.div_small. lia. }
  unfold resolveGroup. rewrite Hf, Hl.
  destruct (String.eqb_spec
              (formatDuration ((timestamp finalSnapshot - timestamp first) / 1000))
              "00:00:00") as [Ed | Ed].
  - split; [intros _ | reflexivity]. left. tauto.
  - destruct (Js.strict_eq (team1 (getFinalScore (data finalSnapshot))) (Js.Num 0))
      eqn:E1;
    destruct (Js.strict_eq (team2 (getFinalScore (data finalSnapshot))) (Js.Num 0))
      eqn:E2; simpl;
    try (destruct (decide _ _)); split;
      try reflexivity; try discriminate;
      try (intros _; right; split; now apply strict_eq_zero);
      intros [H | [H1 H2]];
      try (exfalso; apply Ed; tauto);
      apply strict_eq_zero in H1; apply strict_eq_zero in H2; congruence.
Qed.

Lemma resolveGroups_all (P : GameResult -> Prop) (gameGroups : list (list FileInfo)) :
  (forall g r, In g gameGroups -> resolveGroup g = Done (Some r) -> P r) ->
  forall rs, resolveGroups gameGroups = Done rs -> Forall P rs.
Proof.
  induction gameGroups as [| g gs IH]; simpl; intros HP rs E.
  - injection E as <-. constructor.
  - destruct (resolveGroup g) as [| r] eqn:Hg; [discriminate |].
    destruct (resolveGroups gs) as [| rs'] eqn:Hgs; [discriminate |].
    injection E as <-.
    assert (Hrest : Forall P rs') by (apply IH; eauto).
    destruct r as [x |]; [constructor; eauto | assumption].
Qed.

Lemma aggregateGameResults_results (env : Retrieval) (d : Disk) :
  fst (aggregateGameResults env d) = [] \/
  exists fileInfos,
    env = Snapshots fileInfos /\
    resolveSnapshots fileInfos = Done (fst (aggregateGameResults env d)) /\
    snd (aggregateGameResults env d) =
      saveGameResults (fst (aggregateGameResults env d)) d.
Proof.
  destruct env as [| | fileInfos]; simpl; auto.
  destruct (resolveSnapshots fileInfos) as [| rs] eqn:E; simpl; auto.
  right. exists fileInfos. auto.
Qed.

Lemma aggregateGameResults_disk (env : Retrieval) (d : Disk) :
  snd (aggregateGameResults env d) = d \/
  snd (aggregateGameResults env d) = saveGameResults (fst (aggregateGameResults env d)) d.
Proof.
  destruct env as [| | fileInfos]; simpl; auto.
  destruct (resolveSnapshots fileInfos); simpl; auto.
Qed.

(** ** Reconciliation *)

Lemma same_key_true (n g : GameResult) : same_key n g = true <-> shares_key g n.
Proof.
  unfold same_key, shares_key.
  rewrite andb_true_iff, Z.eqb_eq, String.eqb_eq. tauto.
Qed.

Lemma known_key (history : list GameResult) (g : GameResult) :
  existsb (same_key g) history = true <->
  exists e, In e history /\ shares_key e g.
Proof.
  rewrite existsb_exists. split; intros (e & He & Hk); exists e; split; auto;
    now apply same_key_true.
Qed.

Lemma mergeGame_known (history : list GameResult) (g : GameResult) :
  existsb (same_key g) history = true -> mergeGame history g = history.
Proof. unfold mergeGame. now intros ->. Qed.

Lemma mergeGame_new (history : list GameResult) (g : GameResult) :
  existsb (same_key g) history = false -> mergeGame history g = history ++ [g].
Proof. unfold mergeGame. now intros ->. Qed.

Lemma shares_key_refl (g : GameResult) : shares_key g g.
Proof. split; reflexivity. Qed.

Lemma mergeGame_covers (history : list GameResult) (g : GameResult) :
  existsb (same_key g) (mergeGame history g) = true.
Proof.
  destruct (existsb (same_key g) history) eqn:E.
  - now rewrite mergeGame_known.
  - rewrite mergeGame_new by assumption. apply known_key.
    exists g. split; [apply in_or_app; right; now left | apply shares_key_refl].
Qed.

Lemma mergeGame_extends (history : list GameResult) (g : GameResult) :
  exists extra, mergeGame history g = history ++ extra.
Proof.
  unfold mergeGame. destruct (existsb _ _).
  - exists []. now rewrite app_nil_r.
  - now exists [g].
Qed.

Lemma mergeGames_extends (newGames history : list GameResult) :
  exists extra, mergeGames history newGames = history ++ extra /\
                incl extra newGames.
Proof.
  unfold mergeGames. revert history.
  induction newGames as [| g gs IH]; intros history; simpl.
  - exists []. split; [now rewrite app_nil_r | apply incl_nil_l].
  - destruct (IH (mergeGame history g)) as (extra & E & Hincl). rewrite E.
    unfold mergeGame. destruct (existsb _ _).
    + exists extra. split; [reflexivity | now apply incl_tl].
    + exists (g :: extra). split; [now rewrite <- app_assoc |].
      apply incl_cons; [now left | now apply incl_tl].
Qed.

Lemma known_key_app (history extra : list GameResult) (g : GameResult) :
  existsb (same_key g) history = true ->
  existsb (same_key g) (history ++ extra) = true.
Proof. intros H. rewrite existsb_app, H. reflexivity. Qed.

Lemma mergeGames_covers (newGames history : list GameResult) :
  forall g, In g newGames ->
            existsb (same_key g) (mergeGames history newGames) = true.
Proof.
  unfold mergeGames. revert history.
  induction newGames as [| n ns IH]; intros history g Hin; simpl.
  - contradiction.
  - destruct Hin as [-> | Hin]; [| now apply IH].
    destruct (mergeGames_extends ns (mergeGame history g)) as (extra & E & _).
    unfold mergeGames in E. rewrite E.
    apply known_key_app, mergeGame_covers.
Qed.

Lemma mergeGames_known (newGames history : list GameResult) :
  (forall g, In g newGames -> existsb (same_key g) history = true) ->
  mergeGames history newGames = history.
Proof.
  unfold mergeGames. induction newGames as [| n ns IH]; simpl; intros H.
  - reflexivity.
  - rewrite mergeGame_known by (apply H; now left).
    apply IH. intros g Hg. apply H. now right.
Qed.

(** C2. Merging a result whose key [(startTime, map)] already occurs in the
    history leaves the history as it is, in particular at the same length; a
    result is appended exactly when no entry shares its key; merging the same
    result, or the same batch of results, a second time changes nothing. *)
Theorem reconciliation_idempotent (history : list GameResult) (g : GameResult) :
  ((exists e, In e history /\ shares_key e g) ->
   mergeGame history g = history /\
   List.length (mergeGame history g) = List.length history) /\
  (mergeGame history g = history ++ [g] <->
   ~ exists e, In e history /\ shares_key e g) /\
  List.length (mergeGame (mergeGame history g) g)
    = List.length (mergeGame history g) /\
  (forall newGames,
      mergeGames (mergeGames history newGames) newGames
      = mergeGames history newGames).
Proof.
  repeat split.
  - apply mergeGame_known. now apply known_key.
  - f_equal. apply mergeGame_known. now apply known_key.
  - intros E Hex. apply known_key in Hex.
    rewrite mergeGame_known in E by assumption.
    apply (f_equal (@List.length _)) in E. rewrite length_app in E.
    simpl in E. lia.
  - intros Hno. apply mergeGame_new.
    destruct (existsb (same_key g) history) eqn:E; [| reflexivity].
    exfalso. apply Hno. now apply known_key.
  - f_equal. apply mergeGame_known, mergeGame_covers.
  - intros newGames. apply mergeGames_known.
    intros n Hn. now apply mergeGames_covers.
Qed.

Lemma mergeGames_all (P : GameResult -> Prop) (history newGames : list GameResult) :
  Forall P history -> Forall P newGames -> Forall P (mergeGames history newGames).
Proof.
  intros Hh Hn.
  destruct (mergeGames_extends newGames history) as (extra & -> & Hincl).
  apply Forall_app. split; [assumption |].
  apply Forall_forall. intros x Hx.
  rewrite Forall_forall in Hn. auto.
Qed.

Lemma updateAllResults_unfold (env : Retrieval) (st : Disk * Memory) :
  let r := aggregateGameResults env (fst st) in
  let merged := mergeGames (loadPersistedGames (snd r)) (fst r) in
  updateAllResults env st =
    ({| games_json := Some (map json_game merged);
        leaderboard_json := aggregateLeaderboardFromGames merged |},
     {| gameResultsData := merged;
        leaderboardData := aggregateLeaderboardFromGames merged |}).
Proof.
  unfold updateAllResults.
  destruct (aggregateGameResults env (fst st)) as [newGames d]. reflexivity.
Qed.

Lemma json_num_zero (a : Js.num) : json_num a = Js.Num 0 <-> a = Js.Num 0.
Proof. destruct a; simpl; split; congruence. Qed.

Lemma json_game_degenerate (g : GameResult) : degenerate (json_game g) <-> degenerate g.
Proof.
  unfold degenerate. simpl. rewrite !json_num_zero. tauto.
Qed.

Lemma aggregateGameResults_not_degenerate (env : Retrieval) (d : Disk) :
  Forall (fun r => ~ degenerate r) (fst (aggregateGameResults env d)).
Proof.
  destruct (aggregateGameResults_results env d) as [-> | (infos & _ & E & _)];
    [constructor |].
  unfold resolveSnapshots in E.
  eapply resolveGroups_all; [| exact E].
  intros g r _. apply resolveGroup_not_degenerate.
Qed.

Lemma updateAllResults_not_degenerate (env : Retrieval) (st : Disk * Memory) :
  Forall (fun r => ~ degenerate r) (loadPersistedGames (fst st)) ->
  Forall (fun r => ~ degenerate r)
         (loadPersistedGames (fst (updateAllResults env st))) /\
  Forall (fun r => ~ degenerate r)
         (gameResultsData (snd (updateAllResults env st))).
Proof.
  intros Hold. rewrite updateAllResults_unfold. simpl.
  assert (Hmerged :
    Forall (fun r => ~ degenerate r)
      (mergeGames (loadPersistedGames (snd (aggregateGameResults env (fst st))))
                  (fst (aggregateGameResults env (fst st))))).
  { pose proof (aggregateGameResults_not_degenerate env (fst st)) as Hnew.
    apply mergeGames_all; [| assumption].
    destruct (aggregateGameResults_disk env (fst st)) as [-> | ->];
      [assumption |].
    simpl. apply Forall_forall. intros x Hx.
    apply in_map_iff in Hx as (y & <- & Hy).
    rewrite json_game_degenerate.
    rewrite Forall_forall in Hnew. auto. }
  split; [| assumption].
  apply Forall_forall. intros x Hx.
  apply in_map_iff in Hx as (y & <- & Hy).
  rewrite json_game_degenerate.
  rewrite Forall_forall in Hmerged. auto.
Qed.

Lemma handle_not_degenerate (st : Disk * Memory) (ev : Event) :
  Forall (fun r => ~ degenerate r) (loadPersistedGames (fst st)) /\
  Forall (fun r => ~ degenerate r) (gameResultsData (snd st)) ->
  Forall (fun r => ~ degenerate r) (loadPersistedGames (fst (handle st ev))) /\
  Forall (fun r => ~ degenerate r) (gameResultsData (snd (handle st ev))).
Proof.
  intros [Hd Hm]. destruct ev as [env | env]; simpl.
  - now apply updateAllResults_not_degenerate.
  - split; [| assumption].
    destruct (aggregateGameResults_disk env (fst st)) as [-> | ->];
      [assumption |].
    simpl. apply Forall_forall. intros x Hx.
    apply in_map_iff in Hx as (y & <- & Hy).
    rewrite json_game_degenerate.
    pose proof (aggregateGameResults_not_degenerate env (fst st)) as Hnew.
    rewrite Forall_forall in Hnew. auto.
Qed.

Lemma run_not_degenerate (events : list Event) :
  Forall (fun r => ~ degenerate r) (loadPersistedGames (fst (run events))) /\
  Forall (fun r => ~ degenerate r) (gameResultsData (snd (run events))).
Proof.
  unfold run.
  assert (G : forall st,
             Forall (fun r => ~ degenerate r) (loadPersistedGames (fst st)) /\
             Forall (fun r => ~ degenerate r) (gameResultsData (snd st)) ->
             Forall (fun r => ~ degenerate r)
                    (loadPersistedGames (fst (fold_left handle events st))) /\
             Forall (fun r => ~ degenerate r)
                    (gameResultsData (snd (fold_left handle events st)))).
  { induction events as [| ev r IH]; intros st H; simpl.
    - exact H.
    - apply IH. now apply handle_not_degenerate. }
  apply G. split; constructor.
Qed.

(** C5. The result resolver never emits a result whose duration is
    ["00:00:00"] or whose final score is 0-0: a group for which either is
    computed yields no result, so no such result is returned by
    [aggregateGameResults]; an update cycle leaves a history free of such
    results free of them, and from the first start on, whatever the cycles
    and requests, neither [games.json] nor the history in memory ever holds
    one. *)
Theorem no_degenerate_result :
  (forall group r, resolveGroup group = Done (Some r) -> ~ degenerate r) /\
  (forall group first finalSnapshot,
      nth_error (stable_sort by_timestamp group) 0 = Some first ->
      last_error (stable_sort by_timestamp group) = Some finalSnapshot ->
      formatDuration ((timestamp finalSnapshot - timestamp first) / 1000)
        = "00:00:00"%string \/
      (team1 (getFinalScore (data finalSnapshot)) = Js.Num 0 /\
       team2 (getFinalScore (data finalSnapshot)) = Js.Num 0) ->
      resolveGroup group = Done None) /\
  (forall env d,
      Forall (fun r => ~ degenerate r) (fst (aggregateGameResults env d))) /\
  (forall env st,
      Forall (fun r => ~ degenerate r) (loadPersistedGames (fst st)) ->
      Forall (fun r => ~ degenerate r)
             (loadPersistedGames (fst (updateAllResults env st))) /\
      Forall (fun r => ~ degenerate r)
             (gameResultsData (snd (updateAllResults env st)))) /\
  (forall events,
      Forall (fun r => ~ degenerate r) (loadPersistedGames (fst (run events))) /\
      Forall (fun r => ~ degenerate r) (gameResultsData (snd (run events)))).
Proof.
  split; [| split; [| split; [| split]]].
  - exact resolveGroup_not_degenerate.
  - intros group first final Hf Hl Hdeg. unfold resolveGroup.
    rewrite Hf, Hl. destruct Hdeg as [-> | [-> ->]]; simpl.
    + reflexivity.
    + now destruct (String.eqb _ _).
  - exact aggregateGameResults_not_degenerate.
  - exact updateAllResults_not_degenerate.
  - exact run_not_degenerate.
Qed.

Lemma no_degenerate_result_witness :
  exists r, resolveGroup new_files = Done (Some r) /\ ~ degenerate r.
Proof.
  eexists. split.
  - vm_compute. reflexivity.
  - apply (proj1 no_degenerate_result new_files). vm_compute. reflexivity.
Defined.

(** C9. When the final score of an emitted result is tied, [winner] and
    [loser] are both the empty list; when the scores differ they are the
    names of the two rosters, the winner being team 1 when its score is the
    greater and team 2 otherwise. *)
Theorem winner_and_loser (group : list FileInfo) (r : GameResult) :
  resolveGroup group = Done (Some r) ->
  (Js.strict_eq (team1 (finalScore r)) (team2 (finalScore r)) = true ->
   winner r = [] /\ loser r = []) /\
  (Js.strict_eq (team1 (finalScore r)) (team2 (finalScore r)) = false ->
   Js.gt (team1 (finalScore r)) (team2 (finalScore r)) = true ->
   winner r = map name (players_team1 (players r)) /\
   loser r = map name (players_team2 (players r))) /\
  (Js.strict_eq (team1 (finalScore r)) (team2 (finalScore r)) = false ->
   Js.gt (team1 (finalScore r)) (team2 (finalScore r)) = false ->
   winner r = map name (players_team2 (players r)) /\
   loser r = map name (players_team1 (players r))).
Proof.
  intros H. apply resolveGroup_emits in H
    as (f & l & _ & _ & _ & _ & _ & _ & _ & Hw).
  injection Hw as Hwin Hlose. rewrite Hwin, Hlose. unfold decide.
  repeat split; intros; repeat match goal with
    | E : _ = _ |- _ => rewrite E; clear E
    end; reflexivity.
Qed.

(** A group whose last snapshot reads 3-3. *)
Lemma winner_and_loser_witness :
  let group := [ snapshot "backup_round01.txt" 0 1 "de_inferno" "0" "0";
                 snapshot "backup_round06.txt" 300000 6 "de_inferno" "3" "3" ] in
  exists r, resolveGroup group = Done (Some r) /\
            finalScore r = {| team1 := Js.Num 3; team2 := Js.Num 3 |} /\
            winner r = [] /\ loser r = [].
Proof.
  intros group. eexists. split; [vm_compute; reflexivity |].
  split; [reflexivity |].
  apply (proj1 (winner_and_loser group _ eq_refl)). reflexivity.
Defined.

(** ** The session in progress *)

Lemma currentGameOf_recent (now : Z) (gameGroups : list (list FileInfo))
    (currentGroup : list FileInfo) (lastInfo : FileInfo) :
  last_error gameGroups = Some currentGroup ->
  last_error currentGroup = Some lastInfo ->
  now - timestamp lastInfo <= 90 * 1000 ->
  exists first others currentSnapshot,
    stable_sort by_timestamp currentGroup = first :: others /\
    last_error (stable_sort by_timestamp currentGroup) = Some currentSnapshot /\
    currentGameOf now gameGroups =
      Some {| cg_startTime := timestamp first;
              currentSnapshotTime := timestamp currentSnapshot;
              cg_duration :=
                formatDuration ((timestamp currentSnapshot - timestamp first) / 1000);
              cg_map := Js.or_else (sf_map (data currentSnapshot)) "Unknown";
              currentScore := getFinalScore (data currentSnapshot);
              currentRound := fold_left max2 (map round others) (round first);
              cg_players :=
                (playerNames (PlayersOnTeam1 (data currentSnapshot)),
                 playerNames (PlayersOnTeam2 (data currentSnapshot))) |}.
Proof.
  intros Hg Hl Hrecent. unfold currentGameOf. rewrite Hg, Hl.
  destruct (Z.ltb_spec (90 * 1000) (now - timestamp lastInfo)) as [Hold | _];
    [lia |].
  assert (Hne : currentGroup <> []).
  { intros ->. discriminate Hl. }
  assert (Hs : stable_sort by_timestamp currentGroup <> []).
  { intros E. now apply stable_sort_nil_iff in E. }
  destruct (last_error_some _ Hs) as [final Hfinal].
  destruct (stable_sort by_timestamp currentGroup) as [| first others] eqn:E;
    [congruence |].
  exists first, others, final. rewrite Hfinal. auto.
Qed.

(** C6. For a non-empty final group, the detector returns nothing exactly
    when [now] minus the timestamp of the group's last record exceeds 90
    seconds: nothing at 91 seconds, a session at 89 seconds.  Within the
    window a session is always returned, with the duration and the score as
    computed, whatever they are: no discard rule applies. *)
Theorem current_session_recency (now : Z) (gameGroups : list (list FileInfo))
    (currentGroup : list FileInfo) (lastInfo : FileInfo) :
  last_error gameGroups = Some currentGroup ->
  last_error currentGroup = Some lastInfo ->
  (currentGameOf now gameGroups = None <-> now - timestamp lastInfo > 90 * 1000) /\
  (now - timestamp lastInfo = 91 * 1000 -> currentGameOf now gameGroups = None) /\
  (now - timestamp lastInfo = 89 * 1000 -> currentGameOf now gameGroups <> None) /\
  (now - timestamp lastInfo <= 90 * 1000 ->
   exists cg first currentSnapshot,
     currentGameOf now gameGroups = Some cg /\
     nth_error (stable_sort by_timestamp currentGroup) 0 = Some first /\
     last_error (stable_sort by_timestamp currentGroup) = Some currentSnapshot /\
     cg_duration cg
       = formatDuration ((timestamp currentSnapshot - timestamp first) / 1000) /\
     currentScore cg = getFinalScore (data currentSnapshot)).
Proof.
  intros Hg Hl.
  assert (Hold : now - timestamp lastInfo > 90 * 1000 ->
                 currentGameOf now gameGroups = None).
  { intros H. unfold currentGameOf. rewrite Hg, Hl.
    destruct (Z.ltb_spec (90 * 1000) (now - timestamp lastInfo)); [reflexivity | lia]. }
  assert (Hnew : now - timestamp lastInfo <= 90 * 1000 ->
                 currentGameOf now gameGroups <> None).
  { intros H.
    destruct (currentGameOf_recent now _ _ _ Hg Hl H) as (f & o & c & _ & _ & ->).
    discriminate. }
  split; [split | split; [| split]].
  - intros E. destruct (Z.le_gt_cases (now - timestamp lastInfo) (90 * 1000));
      [now apply Hnew in E | lia].
  - exact Hold.
  - intros E. apply Hold. lia.
  - intros E. apply Hnew. lia.
  - intros H.
    destruct (currentGameOf_recent now _ _ _ Hg Hl H) as (f & o & c & Es & El & ->).
    eexists _, f, c. rewrite Es in *. simpl. auto.
Qed.

(** A lone snapshot, 89 seconds old, with no round played: the session is
    reported although its duration is ["00:00:00"] and its score 0-0. *)
Lemma current_session_recency_witness :
  let lone := snapshot "backup_round00.txt" 0 0 "de_nuke" "0" "0" in
  exists cg,
    currentGameOf 89000 [[lone]] = Some cg /\
    cg_duration cg = "00:00:00"%string /\
    currentScore cg = {| team1 := Js.Num 0; team2 := Js.Num 0 |} /\
    currentGameOf 91000 [[lone]] = None.
Proof.
  intros lone.
  destruct (current_session_recency 89000 [[lone]] [lone] lone eq_refl eq_refl)
    as (_ & _ & _ & Hin).
  destruct (current_session_recency 91000 [[lone]] [lone] lone eq_refl eq_refl)
    as (_ & Hout & _ & _).
  destruct Hin as (cg & f & c & E & Hf & Hc & Hd & Hs);
    [vm_compute; discriminate |].
  exists cg. injection Hf as <-. injection Hc as <-.
  split; [exact E |].
  split; [exact Hd |].
  split; [exact Hs |].
  apply Hout. reflexivity.
Defined.

(** ** The update cycle *)

(** The merge loop by itself never removes an entry. *)
Lemma mergeGames_keeps (history newGames : list GameResult) (g : GameResult) :
  In g history -> In g (mergeGames history newGames).
Proof.
  intros H. destruct (mergeGames_extends newGames history) as (extra & -> & _).
  apply in_or_app. now left.
Qed.

(** Once the poll has produced snapshots, [games.json] is overwritten with
    the fresh results before it is read back: the merge starts from the
    fresh results, finds each of them already there, and the history of the
    cycle is the fresh results and nothing else. *)
Lemma updateAllResults_after_poll (fileInfos : list FileInfo) (st : Disk * Memory)
    (gameResults : list GameResult) :
  resolveSnapshots fileInfos = Done gameResults ->
  gameResultsData (snd (updateAllResults (Snapshots fileInfos) st))
  = map json_game gameResults.
Proof.
  intros E. rewrite updateAllResults_unfold. simpl. rewrite E. simpl.
  apply mergeGames_known. intros g Hg. apply known_key.
  exists (json_game g). split; [now apply in_map | split; reflexivity].
Qed.

(** When the poll fails or finds no backup file, the history is kept. *)
Lemma updateAllResults_without_poll (env : Retrieval) (st : Disk * Memory) :
  env = RetrievalFailed \/ env = NoBackupFiles ->
  gameResultsData (snd (updateAllResults env st)) = loadPersistedGames (fst st).
Proof.
  intros [-> | ->]; rewrite updateAllResults_unfold; reflexivity.
Qed.

(** C1 (at a failing input). [games.json] holds [old_game]; the poll finds
    the two snapshots of a later match.  After the cycle [old_game] is gone
    from the file and from memory: only the fresh result is left. *)
Theorem updateAllResults_drops_history :
  let before := (disk_with [old_game], empty_memory) in
  let after := updateAllResults (Snapshots new_files) before in
  In old_game (loadPersistedGames (fst before)) /\
  ~ In old_game (loadPersistedGames (fst after)) /\
  ~ In old_game (gameResultsData (snd after)) /\
  List.length (loadPersistedGames (fst after)) = 1%nat.
Proof.
  vm_compute. repeat split.
  - now left.
  - intros [H | []]. discriminate H.
  - intros [H | []]. discriminate H.
Qed.

(** ** The leaderboard *)

Section TallyFacts.
Variable f : Tally -> Tally.
Hypothesis f_name : forall e, entry_name (f e) = entry_name e.

Lemma lookup_update_same (n : string) (tl : list Tally) :
  lookup n (update_entry n f tl) = option_map f (lookup n tl).
Proof.
  unfold lookup. induction tl as [| e r IH]; simpl.
  - reflexivity.
  - destruct (String.eqb (entry_name e) n) eqn:E; simpl.
    + now rewrite f_name, E.
    + now rewrite E.
Qed.

Lemma lookup_update_other (m n : string) (tl : list Tally) :
  m <> n -> lookup m (update_entry n f tl) = lookup m tl.
Proof.
  intros Hmn. unfold lookup. induction tl as [| e r IH]; simpl.
  - reflexivity.
  - destruct (String.eqb_spec (entry_name e) n) as [En | En]; simpl.
    + rewrite f_name.
      destruct (String.eqb_spec (entry_name e) m); [congruence | reflexivity].
    + now rewrite IH.
Qed.

Lemma update_entry_names (n : string) (tl : list Tally) :
  map entry_name (update_entry n f tl) = map entry_name tl.
Proof.
  induction tl as [| e r IH]; simpl.
  - reflexivity.
  - destruct (String.eqb (entry_name e) n); simpl.
    + now rewrite f_name.
    + now rewrite IH.
Qed.
End TallyFacts.

Lemma lookup_app (m : string) (tl : list Tally) (x : Tally) :
  lookup m (tl ++ [x]) =
    match lookup m tl with
    | Some e => Some e
    | None => if String.eqb (entry_name x) m then Some x else None
    end.
Proof.
  unfold lookup. induction tl as [| e r IH]; simpl.
  - reflexivity.
  - now destruct (String.eqb (entry_name e) m).
Qed.

Lemma has_entry_lookup (n : string) (tl : list Tally) :
  has_entry n tl
  = inherited n || match lookup n tl with Some _ => true | None => false end.
Proof.
  unfold has_entry, lookup. f_equal. induction tl as [| e r IH]; simpl.
  - reflexivity.
  - now destruct (String.eqb (entry_name e) n).
Qed.


Lemma lookup_none (n : string) (tl : list Tally) :
  lookup n tl = None -> ~ In n (map entry_name tl).
Proof.
  unfold lookup. intros H Hin. apply in_map_iff in Hin as (e & He & Hin).
  pose proof (find_none _ _ H e Hin) as Hf. simpl in Hf.
  rewrite He, String.eqb_refl in Hf. discriminate.
Qed.

Lemma lookup_in (tl : list Tally) (e : Tally) :
  NoDup (map entry_name tl) -> In e tl -> lookup (entry_name e) tl = Some e.
Proof.
  unfold lookup. induction tl as [| x r IH]; simpl; intros Hnd Hin.
  - contradiction.
  - inversion Hnd as [| ? ? Hx Hr]; subst.
    destruct Hin as [-> | Hin].
    + now rewrite String.eqb_refl.
    + destruct (String.eqb_spec (entry_name x) (entry_name e)) as [E | _].
      * exfalso. apply Hx. rewrite E. now apply in_map.
      * now apply IH.
Qed.

(** *** Names and running totals *)

Lemma named_app (n : string) (l1 l2 : list PlayerStat) :
  named n (l1 ++ l2) = named n l1 ++ named n l2.
Proof. apply filter_app. Qed.

Lemma named_one (n : string) (p : PlayerStat) :
  named n [p] = if String.eqb (name p) n then [p] else [].
Proof. reflexivity. Qed.

Lemma named_nil_incl (n : string) (l1 l2 : list PlayerStat) :
  incl l1 l2 -> named n l2 = [] -> named n l1 = [].
Proof.
  intros Hincl H2. destruct (named n l1) as [| p r] eqn:E; [reflexivity |].
  assert (Hp : In p (named n l1)) by (rewrite E; now left).
  apply filter_In in Hp as [Hp Hn].
  assert (Hp2 : In p (named n l2)) by (apply filter_In; auto).
  rewrite H2 in Hp2. contradiction.
Qed.

Lemma sum_num_snoc (l : list Js.num) (a : Js.num) :
  sum_num (l ++ [a]) = Js.add (sum_num l) a.
Proof. unfold sum_num. now rewrite fold_left_app. Qed.

(** *** The tallying loops *)

Lemma summary_other (n : string) (A W : list PlayerStat) (p : PlayerStat) :
  name p <> n -> summary n (A ++ [p]) W = summary n A W.
Proof.
  intros Hn. unfold summary. rewrite named_app, named_one.
  destruct (inherited n); [reflexivity |].
  destruct (String.eqb_spec (name p) n); [contradiction |].
  now rewrite app_nil_r.
Qed.

Lemma summary_other_win (n : string) (A W : list PlayerStat) (p : PlayerStat) :
  name p <> n -> summary n A (W ++ [p]) = summary n A W.
Proof.
  intros Hn. unfold summary. rewrite named_app, named_one.
  destruct (inherited n); [reflexivity |].
  destruct (String.eqb_spec (name p) n); [contradiction |].
  now rewrite app_nil_r.
Qed.

Lemma expected_add_appearance (p : PlayerStat) (apps won : list PlayerStat) :
  add_appearance p (expected_tally (name p) apps won)
  = expected_tally (name p) (apps ++ [p]) won.
Proof.
  unfold add_appearance, expected_tally.
  cbn [entry_name matchesPlayed wins totalKills totalDeaths].
  rewrite !map_app, length_app. cbn [map List.length].
  rewrite !sum_num_snoc. f_equal. lia.
Qed.

Lemma expected_add_win (n : string) (p : PlayerStat) (apps won : list PlayerStat) :
  add_win (expected_tally n apps won) = expected_tally n apps (won ++ [p]).
Proof.
  unfold add_win, expected_tally.
  cbn [entry_name matchesPlayed wins totalKills totalDeaths].
  rewrite length_app. cbn [List.length]. f_equal. lia.
Qed.

Lemma credit_appearance_tallies (tl : list Tally) (A W : list PlayerStat)
    (p : PlayerStat) :
  tallies tl A W -> tallies (credit_appearance tl p) (A ++ [p]) W.
Proof.
  intros [Hnd Hlk Hincl].
  unfold credit_appearance.
  set (tl1 := if has_entry (name p) tl then tl else tl ++ [fresh_entry (name p)]).
  assert (Hname : forall e, entry_name (add_appearance p e) = entry_name e)
    by reflexivity.
  assert (H1 : NoDup (map entry_name tl1) /\
               (forall m, m <> name p -> lookup m tl1 = lookup m tl) /\
               lookup (name p) tl1 =
                 if inherited (name p) then None else
                 Some (match lookup (name p) tl with
                       | Some e => e
                       | None => fresh_entry (name p)
                       end)).
  { unfold tl1. rewrite has_entry_lookup.
    pose proof (Hlk (name p)) as Hp. unfold summary in Hp.
    destruct (inherited (name p)); cbn [orb]; [repeat split; auto |].
    destruct (lookup (name p) tl) as [e |] eqn:E.
    - repeat split; auto.
    - repeat split.
      + rewrite map_app. simpl.
        apply NoDup_app.
        * assumption.
        * repeat constructor. intros [].
        * intros x Hx [<- | []]. now apply lookup_none in E.
      + intros m Hm. rewrite lookup_app. simpl.
        destruct (lookup m tl); [reflexivity |].
        destruct (String.eqb_spec (name p) m); [congruence | reflexivity].
      + rewrite lookup_app, E. simpl. now rewrite String.eqb_refl. }
  destruct H1 as (Hnd1 & Hother & Hsame).
  constructor.
  - now rewrite update_entry_names.
  - intros n. destruct (string_dec n (name p)) as [-> | Hn].
    + rewrite lookup_update_same, Hsame by assumption.
      pose proof (Hlk (name p)) as Hp. unfold summary in Hp |- *.
      destruct (inherited (name p)); [reflexivity |].
      cbn [option_map]. rewrite Hp, named_app, named_one, String.eqb_refl.
      destruct (named (name p) A) as [| a r] eqn:EA.
      * simpl. f_equal.
        assert (EW : named (name p) W = []) by (eapply named_nil_incl; eauto).
        rewrite EW. reflexivity.
      * rewrite expected_add_appearance. reflexivity.
    + rewrite lookup_update_other, Hother by auto.
      rewrite summary_other by auto. apply Hlk.
  - now apply incl_appl.
Qed.

Lemma named_of_member (p : PlayerStat) (A : list PlayerStat) :
  In p A -> named (name p) A <> [].
Proof.
  intros Hin E.
  assert (Hp : In p (named (name p) A)).
  { apply filter_In. split; [assumption | apply String.eqb_refl]. }
  rewrite E in Hp. contradiction.
Qed.

Lemma credit_win_tallies (tl : list Tally) (A W : list PlayerStat) (p : PlayerStat) :
  tallies tl A W -> In p A -> tallies (credit_win tl p) A (W ++ [p]).
Proof.
  intros [Hnd Hlk Hincl] Hp.
  unfold credit_win.
  assert (Hname : forall e, entry_name (add_win e) = entry_name e) by reflexivity.
  constructor.
  - now rewrite update_entry_names.
  - intros n. destruct (string_dec n (name p)) as [-> | Hn].
    + rewrite lookup_update_same, Hlk by assumption.
      unfold summary. destruct (inherited (name p)); [reflexivity |].
      rewrite named_app, named_one, String.eqb_refl.
      pose proof (named_of_member p A Hp) as HA.
      destruct (named (name p) A) as [| a r]; [congruence |].
      simpl. f_equal. apply expected_add_win.
    + rewrite lookup_update_other by auto.
      rewrite summary_other_win by auto. apply Hlk.
  - apply incl_app; [assumption |]. intros x [<- | []]. assumption.
Qed.

Lemma credit_appearances_tallies (ps : list PlayerStat) :
  forall tl A W,
    tallies tl A W -> tallies (fold_left credit_appearance ps tl) (A ++ ps) W.
Proof.
  induction ps as [| p r IH]; intros tl A W H; simpl.
  - now rewrite app_nil_r.
  - replace (A ++ p :: r) with ((A ++ [p]) ++ r) by now rewrite <- app_assoc.
    apply IH. now apply credit_appearance_tallies.
Qed.

Lemma credit_wins_tallies (ws : list PlayerStat) :
  forall tl A W,
    tallies tl A W -> incl ws A ->
    tallies (fold_left credit_win ws tl) A (W ++ ws).
Proof.
  induction ws as [| p r IH]; intros tl A W H Hincl; simpl.
  - now rewrite app_nil_r.
  - replace (W ++ p :: r) with ((W ++ [p]) ++ r) by now rewrite <- app_assoc.
    apply IH.
    + apply credit_win_tallies; [assumption | apply Hincl; now left].
    + intros x Hx. apply Hincl. now right.
Qed.

(** The roster the code credits with a win is the one with the strictly
    higher score. *)
Lemma winning_roster_spec (game : GameResult) :
  match winning_roster game with Some r => r | None => [] end = winners game /\
  (winning_roster game = None -> winners game = []).
Proof.
  unfold winning_roster, winners.
  rewrite !JsFacts.parseInt_or_zero_spec.
  destruct (team1 (finalScore game)) as [a | |], (team2 (finalScore game)) as [b | |];
    cbn [Js.gt Js.strict_eq Js.to_number score_read negb];
    repeat match goal with
      | |- context [?x =? ?y] => destruct (Z.eqb_spec x y); simpl
      | |- context [?x <? ?y] => destruct (Z.ltb_spec x y); simpl
      end;
    try (exfalso; lia);
    (split; [reflexivity | intros E; try discriminate E; reflexivity]).
Qed.

Lemma winners_incl (game : GameResult) : incl (winners game) (roster game).
Proof.
  unfold winners, roster.
  destruct (_ <? _); [apply incl_appl, incl_refl |].
  destruct (_ <? _); [apply incl_appr, incl_refl | apply incl_nil_l].
Qed.

Lemma tally_game_tallies (tl : list Tally) (A W : list PlayerStat) (game : GameResult) :
  tallies tl A W ->
  tallies (tally_game tl game) (A ++ roster game) (W ++ winners game).
Proof.
  intros H. unfold tally_game.
  assert (H2 : tallies
                 (fold_left credit_appearance (players_team2 (players game))
                    (fold_left credit_appearance (players_team1 (players game)) tl))
                 (A ++ roster game) W).
  { unfold roster. rewrite app_assoc.
    now apply credit_appearances_tallies, credit_appearances_tallies. }
  destruct (winning_roster_spec game) as [Hw Hnone].
  destruct (winning_roster game) as [r |].
  - rewrite <- Hw. apply credit_wins_tallies; [assumption |].
    rewrite Hw. apply incl_appr, winners_incl.
  - rewrite Hnone, app_nil_r by reflexivity. assumption.
Qed.

Lemma tally_games_tallies (history : list GameResult) :
  forall tl A W,
    tallies tl A W ->
    tallies (fold_left tally_game history tl)
            (A ++ flat_map roster history) (W ++ flat_map winners history).
Proof.
  induction history as [| g r IH]; intros tl A W H; simpl.
  - now rewrite !app_nil_r.
  - rewrite !app_assoc. apply IH. now apply tally_game_tallies.
Qed.

Lemma tempLeaderboard_tallies (history : list GameResult) :
  tallies (tempLeaderboard history)
          (flat_map roster history) (flat_map winners history).
Proof.
  apply (tally_games_tallies history [] [] []).
  constructor.
  - constructor.
  - intros n. unfold summary. now destruct (inherited n).
  - apply incl_refl.
Qed.

(** *** From the tallies to the leaderboard *)

Lemma filter_split_perm {A : Type} (f : A -> bool) (l : list A) :
  Permutation (filter f l ++ filter (fun x => negb (f x)) l) l.
Proof.
  induction l as [| x r IH]; simpl.
  - reflexivity.
  - destruct (f x); simpl.
    + now apply perm_skip.
    + rewrite <- Permutation_middle. now apply perm_skip.
Qed.

Lemma object_values_perm (tl : list Tally) : Permutation (object_values tl) tl.
Proof.
  unfold object_values.
  rewrite stable_sort_perm. apply filter_split_perm.
Qed.

Lemma leaderboard_perm (history : list GameResult) :
  Permutation (aggregateLeaderboardFromGames history)
              (map with_kd (tempLeaderboard history)).
Proof.
  unfold aggregateLeaderboardFromGames.
  rewrite stable_sort_perm. apply Permutation_map, object_values_perm.
Qed.

Lemma leaderboard_entries (history : list GameResult) (e : LeaderboardEntry) :
  In e (aggregateLeaderboardFromGames history) <->
  exists t, In t (tempLeaderboard history) /\ e = with_kd t.
Proof.
  split.
  - intros H. apply (Permutation_in _ (leaderboard_perm history)) in H.
    apply in_map_iff in H as (t & <- & Ht). eauto.
  - intros (t & Ht & ->).
    apply (Permutation_in _ (Permutation_sym (leaderboard_perm history))).
    now apply in_map.
Qed.



(** A total over numbers, [null] counting as 0, is their arithmetic sum. *)
Lemma sum_num_numbers (l : list Js.num) :
  Forall (fun a => a <> Js.NaN) l ->
  sum_num l = Js.Num (fold_right Z.add 0 (map score_read l)).
Proof.
  unfold sum_num.
  assert (G : forall acc,
             Forall (fun a => a <> Js.NaN) l ->
             fold_left Js.add l (Js.Num acc)
             = Js.Num (acc + fold_right Z.add 0 (map score_read l))).
  { induction l as [| a r IH]; intros acc H; simpl.
    - f_equal. lia.
    - inversion H as [| ? ? Ha Hr]; subst.
      destruct a as [z | |]; try congruence; cbn [Js.add Js.to_number score_read];
        rewrite IH by assumption; f_equal; lia. }
  intros H. now rewrite G.
Qed.







(** ** Rounding of the kill/death ratio *)

Module DoubleFacts.
Import Double.

Lemma pow2_pos (e : Z) : 0 < pow2 e.
Proof. unfold pow2. apply Z.pow_pos_nonneg; lia. Qed.

Lemma pow2_nonpos (e : Z) : e <= 0 -> pow2 e = 1.
Proof. intros H. unfold pow2. now rewrite Z.max_l by lia. Qed.

Lemma pow2_nonneg (e : Z) : 0 <= e -> pow2 e = 2 ^ e.
Proof. intros H. unfold pow2. now rewrite Z.max_r by lia. Qed.

Lemma pow2_add (a b : Z) : 0 <= a -> 0 <= b -> pow2 (a + b) = pow2 a * pow2 b.
Proof.
  intros Ha Hb. rewrite !pow2_nonneg by lia. now apply Z.pow_add_r.
Qed.

(** [2 ^ ilog2_quot k d <= k / d], with the power moved to the side where
    its exponent is not negative. *)
Lemma ilog2_quot_le (k d : Z) :
  0 < k -> 0 < d ->
  d * pow2 (ilog2_quot k d) <= k * pow2 (- ilog2_quot k d).
Proof.
  intros Hk Hd. unfold ilog2_quot.
  set (s := Z.log2 k - Z.log2 d).
  destruct (Z.leb_spec (d * pow2 s) (k * pow2 (- s))) as [H | _];
    [exact H |].
  pose proof (Z.log2_spec k Hk) as [Hk1 _].
  pose proof (Z.log2_spec d Hd) as [_ Hd2].
  pose proof (Z.log2_nonneg k) as Hlk.
  pose proof (Z.log2_nonneg d) as Hld.
  destruct (Z.le_gt_cases 1 s) as [Hs | Hs].
  - rewrite (pow2_nonneg (s - 1)), (pow2_nonpos (- (s - 1))) by lia.
    assert (E : 2 ^ Z.log2 k = 2 ^ Z.succ (Z.log2 d) * 2 ^ (s - 1)).
    { rewrite <- Z.pow_add_r by lia. f_equal. unfold s. lia. }
    assert (0 < 2 ^ (s - 1)) by (apply Z.pow_pos_nonneg; lia).
    nia.
  - rewrite (pow2_nonpos (s - 1)), (pow2_nonneg (- (s - 1))) by lia.
    assert (E : 2 ^ Z.succ (Z.log2 d) = 2 ^ Z.log2 k * 2 ^ (- (s - 1))).
    { rewrite <- Z.pow_add_r by lia. f_equal. unfold s. lia. }
    assert (0 < 2 ^ (- (s - 1))) by (apply Z.pow_pos_nonneg; lia).
    nia.
Qed.

(** The scaled quotient is at least [2 ^ 52]: the mantissa has 53 bits. *)
Lemma scaled_quotient_large (k d L : Z) :
  0 < k -> 0 < d ->
  d * pow2 L <= k * pow2 (- L) ->
  2 ^ 52 * (d * pow2 (L - 52)) <= k * pow2 (- (L - 52)).
Proof.
  intros Hk Hd H.
  destruct (Z.le_gt_cases 52 L) as [HL | HL].
  - rewrite (pow2_nonpos (- L)) in H by lia.
    rewrite (pow2_nonpos (- (L - 52))) by lia.
    replace L with (52 + (L - 52)) in H at 1 by lia.
    rewrite pow2_add in H by lia.
    rewrite (pow2_nonneg 52) in H by lia. lia.
  - destruct (Z.le_gt_cases 0 L) as [H0 | H0].
    + rewrite (pow2_nonpos (- L)) in H by lia.
      rewrite (pow2_nonpos (L - 52)) by lia.
      replace 52 with (L + (- (L - 52))) at 1 by lia.
      rewrite <- (pow2_nonneg (L + _)) by lia.
      rewrite pow2_add by lia.
      pose proof (pow2_pos (- (L - 52))). nia.
    + rewrite (pow2_nonpos L) in H by lia.
      rewrite (pow2_nonpos (L - 52)) by lia.
      replace (- (L - 52)) with (52 + - L) by lia.
      rewrite pow2_add by lia.
      rewrite (pow2_nonneg 52) by lia. nia.
Qed.

(** [div k d] is a nearest 53-bit value to [k / d]. *)
Lemma div_nearest (k d : Z) :
  0 < k -> 0 < d ->
  let x := div k d in
  let P := pow2 (exponent x) in
  let R := pow2 (- exponent x) in
  2 * Z.abs (mantissa x * (d * P) - k * R) <= d * P /\
  2 ^ 52 * (d * P) <= k * R.
Proof.
  intros Hk Hd. unfold div.
  destruct (Z.eqb_spec k 0) as [-> | _]; [lia |].
  set (e := ilog2_quot k d - 52).
  cbn [mantissa exponent].
  set (P := pow2 e). set (R := pow2 (- e)).
  assert (HP : 0 < d * P) by (pose proof (pow2_pos e); unfold P; nia).
  split.
  - pose proof (Z.div_mod (k * R) (d * P) ltac:(lia)) as Hdm.
    pose proof (Z.mod_pos_bound (k * R) (d * P) HP) as Hr.
    set (m0 := k * R / (d * P)) in *.
    set (r := (k * R) mod (d * P)) in *.
    destruct (Z.ltb_spec (2 * r) (d * P)); [nia |].
    destruct (Z.ltb_spec (d * P) (2 * r)); [nia |].
    destruct (Z.even m0); nia.
  - unfold P, R, e. apply scaled_quotient_large; try assumption.
    now apply ilog2_quot_le.
Qed.

(** Rounding the double to two decimals gives a two-decimal value nearest
    to the exact quotient, as long as [100 * k] stays below [2 ^ 52]. *)
Lemma hundredths_nearest (k d : Z) :
  0 <= k -> 100 * k < 2 ^ 52 -> 0 < d ->
  let n := hundredths (div k d) in
  0 <= n /\ 2 * Z.abs (100 * k - n * d) <= d.
Proof.
  intros Hk Hsmall Hd n.
  destruct (Z.eq_dec k 0) as [-> | Hk0].
  { subst n. vm_compute hundredths. lia. }
  assert (Hkpos : 0 < k) by lia.
  destruct (div_nearest k d Hkpos Hd) as [Hnear Hbig].
  subst n. unfold hundredths.
  set (x := div k d) in *.
  set (m := mantissa x) in *.
  pose proof (pow2_pos (exponent x)) as HP.
  pose proof (pow2_pos (- exponent x)) as HR.
  destruct (Z.le_gt_cases 0 (exponent x)) as [He | He].
  - exfalso. rewrite (pow2_nonpos (- exponent x)) in Hbig by lia. nia.
  - rewrite (pow2_nonpos (exponent x)) in * by lia.
    set (R := pow2 (- exponent x)) in *.
    rewrite !Z.mul_1_r in *.
    assert (Hm : 0 <= m) by nia.
    pose proof (Z.div_mod (200 * m + R) (2 * R) ltac:(lia)) as Hdm.
    pose proof (Z.mod_pos_bound (200 * m + R) (2 * R) ltac:(lia)) as Hr.
    set (n := (200 * m + R) / (2 * R)) in *.
    set (r := (200 * m + R) mod (2 * R)) in *.
    assert (Hn : 0 <= n) by (apply Z.div_pos; lia).
    split; [exact Hn |].
    destruct (Z.le_gt_cases (2 * Z.abs (100 * k - n * d)) d) as [Hok | Hbad];
      [exact Hok | exfalso].
    assert (Hscaled : 2 * R * Z.abs (100 * k - n * d) <= 100 * d + R * d).
    { assert (E : 2 * R * (100 * k - n * d)
                  = 200 * (k * R - m * d) + d * (r - R)) by nia.
      assert (Hb1 : Z.abs (200 * (k * R - m * d)) <= 100 * d) by lia.
      assert (Hb2 : Z.abs (d * (r - R)) <= R * d) by nia.
      rewrite <- (Z.abs_eq (2 * R)) at 1 by lia.
      rewrite <- Z.abs_mul, E. lia. }
    assert (HR100 : R <= 100 * d) by nia.
    nia.
Qed.

End DoubleFacts.

(** *** The string made by [toFixed(2)] denotes [n / 100] *)

Lemma digit_prefix_before_point (u : Decimal.uint) (s : string) :
  Js.digit_prefix (NilEmpty.string_of_uint u ++ String "." s)
  = NilEmpty.string_of_uint u.
Proof.
  induction u; simpl; try rewrite IHu; reflexivity.
Qed.

Lemma drop_digits_before_point (u : Decimal.uint) (s : string) :
  drop_digits (NilEmpty.string_of_uint u ++ String "." s) = String "." s.
Proof.
  induction u; simpl; try rewrite IHu; reflexivity.
Qed.

Lemma digits_value_numeral (n : N) :
  digits_value (NilEmpty.string_of_uint (N.to_uint n)) = Z.of_N n.
Proof.
  unfold digits_value. now rewrite NilEmpty.usu, DecimalN.Unsigned.of_to.
Qed.

Lemma parseFloat_digits (c : ascii) (r : string) :
  Js.is_digit c = true ->
  parseFloat (String c r) = parse_unsigned_decimal (String c r).
Proof.
  intros Hc. destruct (JsFacts.digit_not_special c Hc) as (Hs & Hm & Hp).
  unfold parseFloat. simpl Js.skip_spaces. rewrite Hs.
  destruct c as [b0 b1 b2 b3 b4 b5 b6 b7].
  destruct b0, b1, b2, b3, b4, b5, b6, b7; try reflexivity;
    exfalso; (apply Hm; reflexivity) || (apply Hp; reflexivity).
Qed.

Lemma decimals_read_back_all (r : Z) :
  0 <= r < 100 -> decimals_read_back r = true.
Proof.
  intros Hr.
  assert (H : forallb decimals_read_back (map Z.of_nat (seq 0 100)) = true)
    by (vm_compute; reflexivity).
  rewrite forallb_forall in H. apply H.
  apply in_map_iff. exists (Z.to_nat r). split; [lia |].
  apply in_seq. lia.
Qed.

Lemma parseFloat_fixed2 (n : Z) :
  0 <= n -> parseFloat (Double.fixed2 n) = Some (n, 2%nat).
Proof.
  intros Hn. unfold Double.fixed2.
  assert (Hq : 0 <= n / 100) by (apply Z.div_pos; lia).
  assert (Hr : 0 <= n mod 100 < 100) by (apply Z.mod_pos_bound; lia).
  pose proof (decimals_read_back_all _ Hr) as Hback.
  unfold decimals_read_back in Hback.
  set (S := Js.padStart0 2 (Js.toString (n mod 100))) in *.
  apply andb_true_iff in Hback as [Hback Hval].
  apply andb_true_iff in Hback as [Hpre Hlen].
  apply String.eqb_eq in Hpre. apply Nat.eqb_eq in Hlen. apply Z.eqb_eq in Hval.
  unfold Js.toString at 1.
  destruct (Z.ltb_spec (n / 100) 0) as [| _]; [lia |].
  pose proof (JsFacts.to_uint_nonnil (Z.to_N (n / 100))) as Hu.
  assert (E : NilZero.string_of_uint (N.to_uint (Z.to_N (n / 100)))
              = NilEmpty.string_of_uint (N.to_uint (Z.to_N (n / 100)))).
  { unfold NilZero.string_of_uint.
    destruct (N.to_uint (Z.to_N (n / 100))); congruence. }
  rewrite E.
  destruct (JsFacts.numeral_head _ Hu) as (c & r & Hs & Hc).
  assert (Hparse :
    parseFloat (NilEmpty.string_of_uint (N.to_uint (Z.to_N (n / 100)))
                ++ "." ++ S)
    = parse_unsigned_decimal
        (NilEmpty.string_of_uint (N.to_uint (Z.to_N (n / 100))) ++ "." ++ S)).
  { rewrite Hs. simpl String.append. now apply parseFloat_digits. }
  rewrite Hparse. unfold parse_unsigned_decimal.
  change ("." ++ S)%string with (String "." S).
  rewrite digit_prefix_before_point, drop_digits_before_point, Hpre, Hlen.
  rewrite digits_value_numeral, Hval.
  destruct (_ =? 0)%nat eqn:Ez; [apply Nat.eqb_eq in Ez; lia |].
  f_equal. f_equal.
  rewrite Z2N.id by lia.
  change (10 ^ Z.of_nat 2) with 100.
  pose proof (Z.div_mod n 100). lia.
Qed.

Lemma parseFloat_negative (s : string) :
  parseFloat (String "-" s) =
    match parse_unsigned_decimal s with
    | Some (n, p) => Some (- n, p)
    | None => None
    end.
Proof. reflexivity. Qed.

Lemma parse_unsigned_fixed2 (n : Z) :
  0 <= n -> parse_unsigned_decimal (Double.fixed2 n) = Some (n, 2%nat).
Proof.
  intros Hn. rewrite <- (parseFloat_fixed2 n Hn).
  unfold Double.fixed2, Js.toString.
  assert (Hq : 0 <= n / 100) by (apply Z.div_pos; lia).
  destruct (Z.ltb_spec (n / 100) 0) as [| _]; [lia |].
  pose proof (JsFacts.to_uint_nonnil (Z.to_N (n / 100))) as Hu.
  assert (E : NilZero.string_of_uint (N.to_uint (Z.to_N (n / 100)))
              = NilEmpty.string_of_uint (N.to_uint (Z.to_N (n / 100)))).
  { unfold NilZero.string_of_uint.
    destruct (N.to_uint (Z.to_N (n / 100))); congruence. }
  rewrite E.
  destruct (JsFacts.numeral_head _ Hu) as (c & r & -> & Hc).
  simpl String.append. symmetry. now apply parseFloat_digits.
Qed.

(** What [toFixed(2)] writes for [k / d] reads back as [n / 100] with [n]
    nearest to [100 * k / d]. *)
Lemma div_toFixed2_nearest (k d : Z) :
  0 < d -> 100 * Z.abs k < 2 ^ 52 ->
  exists n,
    parseFloat (div_toFixed2 (Js.Num k) d) = Some (n, 2%nat) /\
    2 * Z.abs (100 * k - n * d) <= d.
Proof.
  intros Hd Hsmall. unfold div_toFixed2. cbn [Js.to_number].
  destruct (Z.ltb_spec k 0) as [Hneg | Hpos].
  - destruct (DoubleFacts.hundredths_nearest (- k) d) as [Hn Hnear]; try lia.
    exists (- Double.hundredths (Double.div (- k) d)).
    rewrite parseFloat_negative, parse_unsigned_fixed2 by assumption.
    split; [reflexivity | lia].
  - destruct (DoubleFacts.hundredths_nearest k d) as [Hn Hnear]; try lia.
    exists (Double.hundredths (Double.div k d)).
    split; [now apply parseFloat_fixed2 | assumption].
Qed.

Lemma hundredths_nonneg (k d : Z) :
  0 <= k -> 0 < d -> 0 <= Double.hundredths (Double.div k d).
Proof.
  intros Hk Hd. unfold Double.div.
  destruct (Z.eqb_spec k 0) as [-> | Hk0]; [vm_compute; discriminate |].
  set (e := Double.ilog2_quot k d - 52).
  pose proof (DoubleFacts.pow2_pos e). pose proof (DoubleFacts.pow2_pos (- e)).
  assert (Hm0 : 0 <= k * Double.pow2 (- e) / (d * Double.pow2 e))
    by (apply Z.div_pos; nia).
  unfold Double.hundredths. cbn [Double.mantissa Double.exponent].
  apply Z.div_pos; [| lia].
  repeat match goal with
    | |- context [if ?c then _ else _] => destruct c
    end; nia.
Qed.

Lemma div_rounded (k d : Z) :
  0 <= k -> 0 < d -> rounded_quotient k d (Double.div k d).
Proof.
  intros Hk Hd. unfold rounded_quotient.
  destruct (Z.eq_dec k 0) as [-> | Hk0].
  - vm_compute Double.div. cbn [Double.mantissa Double.exponent].
    change (Double.pow2 0) with 1. change (Double.pow2 (- 0)) with 1. lia.
  - destruct (DoubleFacts.div_nearest k d) as [H1 H2]; [lia | assumption |].
    split; [exact H1 | intros _; exact H2].
Qed.

Lemma hundredths_nearest_hundredth (x : Double.t) :
  nearest_hundredth x (Double.hundredths x).
Proof.
  unfold nearest_hundredth, Double.hundredths.
  pose proof (DoubleFacts.pow2_pos (- Double.exponent x)) as HR.
  set (a := 200 * Double.mantissa x * Double.pow2 (Double.exponent x)
            + Double.pow2 (- Double.exponent x)).
  set (b := 2 * Double.pow2 (- Double.exponent x)).
  assert (Hb : 0 < b) by (unfold b; lia).
  pose proof (Z.mul_div_le a b Hb).
  pose proof (Z.mul_succ_div_gt a b Hb).
  lia.
Qed.

(** C8. For every leaderboard entry whose totals are counts (numbers that
    are not negative): [kd] is the number [totalKills] exactly when
    [totalDeaths] is 0; otherwise it is [totalKills / totalDeaths] rounded
    to two decimals, that is the string [toFixed(2)] writes for the
    binary64 quotient [x]: [x] is a nearest double to the exact quotient,
    the string denotes [n / 100], and [n / 100] is the two-decimal value
    nearest to [x].  For kill totals below 2^52 / 100 the two roundings
    cannot cross a boundary, and [n / 100] is also a two-decimal value
    nearest to the exact quotient. *)
Theorem kd_rule (history : list GameResult) (e : LeaderboardEntry) (k d : Z) :
  In e (aggregateLeaderboardFromGames history) ->
  totalKills (stats e) = Js.Num k ->
  totalDeaths (stats e) = Js.Num d ->
  0 <= k -> 0 <= d ->
  (kd e = KdNumber (totalKills (stats e)) <-> d = 0) /\
  (d <> 0 ->
   let x := Double.div k d in
   let n := Double.hundredths x in
   kd e = KdString (Double.fixed2 n) /\
   rounded_quotient k d x /\
   nearest_hundredth x n /\
   parseFloat (Double.fixed2 n) = Some (n, 2%nat) /\
   (100 * k < 2 ^ 52 -> 2 * Z.abs (100 * k - n * d) <= d)).
Proof.
  intros He Hk Hdt Hk0 Hd0. apply leaderboard_entries in He as (t & _ & ->).
  cbn [stats kd with_kd] in *. unfold kd_of. rewrite Hk, Hdt.
  cbn [Js.gt Js.to_number]. unfold div_toFixed2. cbn [Js.to_number].
  destruct (Z.ltb_spec k 0) as [| _]; [lia |].
  destruct (Z.ltb_spec 0 d) as [Hpos | Hzero].
  - split; [split; [discriminate | lia] |].
    intros _. cbv zeta.
    split; [reflexivity |].
    split; [now apply div_rounded |].
    split; [apply hundredths_nearest_hundredth |].
    split; [apply parseFloat_fixed2; now apply hundredths_nonneg |].
    intros Hsmall. now apply DoubleFacts.hundredths_nearest.
  - split; [split; [lia | reflexivity] | lia].
Qed.

Lemma kd_rule_witness :
  exists e,
    In e (aggregateLeaderboardFromGames [old_game]) /\
    totalKills (stats e) = Js.Num 9 /\
    totalDeaths (stats e) = Js.Num 20 /\
    kd e = KdString "0.45".
Proof.
  set (e := {| stats := {| entry_name := "Bob"; matchesPlayed := 1; wins := 0;
                           totalKills := Js.Num 9; totalDeaths := Js.Num 20 |};
               kd := KdString "0.45" |}).
  assert (Hin : In e (aggregateLeaderboardFromGames [old_game])).
  { vm_compute. right. left. reflexivity. }
  destruct (kd_rule [old_game] e 9 20 Hin eq_refl eq_refl) as (_ & Hround);
    [lia | lia |].
  destruct Hround as (Hkd & _); [lia |].
  exists e. split; [exact Hin |]. split; [reflexivity |].
  split; [reflexivity | exact Hkd].
Defined.

(** ** A cycle from end to end *)

(** Three snapshots of one match, polled out of order: one result, won by
    Alice's side, and a leaderboard with Alice alone, her [kd] being her
    kills since she never died. *)
Example alice_cycle :
  let after := updateAllResults (Snapshots alice_files) first_start in
  map winner (gameResultsData (snd after)) = [["Alice"%string]] /\
  map duration (gameResultsData (snd after)) = ["00:02:00"%string] /\
  leaderboardData (snd after)
  = [ {| stats := {| entry_name := "Alice"; matchesPlayed := 1; wins := 1;
                     totalKills := Js.Num 1; totalDeaths := Js.Num 0 |};
         kd := KdNumber (Js.Num 1) |} ].
Proof. vm_compute. repeat split. Qed.

(** * Further properties *)

(** ** What one poll resolves *)

Lemma resolveGroup_fields (group : list FileInfo) (r : GameResult) :
  resolveGroup group = Done (Some r) ->
  exists first finalSnapshot,
    nth_error (stable_sort by_timestamp group) 0 = Some first /\
    last_error (stable_sort by_timestamp group) = Some finalSnapshot /\
    startTime r = timestamp first /\
    endTime r = timestamp finalSnapshot /\
    game_map r = Js.or_else (sf_map (data finalSnapshot)) "Unknown".
Proof.
  unfold resolveGroup.
  destruct (nth_error _ 0) as [first |]; [| discriminate].
  destruct (last_error _) as [final |]; [| discriminate].
  destruct (String.eqb _ _); [discriminate |].
  destruct (_ && _); [discriminate |].
  destruct (decide _ _) as [w l].
  intros E. injection E as <-. exists first, final. auto.
Qed.

Lemma sorted_members (group : list FileInfo) (first finalSnapshot : FileInfo) :
  nth_error (stable_sort by_timestamp group) 0 = Some first ->
  last_error (stable_sort by_timestamp group) = Some finalSnapshot ->
  In first group /\ In finalSnapshot group.
Proof.
  intros Hf Hl. unfold last_error in Hl.
  apply nth_error_In in Hf, Hl.
  split; apply (Permutation_in _ (stable_sort_perm by_timestamp group));
    assumption.
Qed.

(** An emitted result spans at least one second. *)
Lemma resolveGroup_span (group : list FileInfo) (r : GameResult) :
  resolveGroup group = Done (Some r) -> startTime r + 1000 <= endTime r.
Proof.
  intros H. pose proof (resolveGroup_fields _ _ H)
    as (f & l & Hf & Hl & -> & -> & _).
  destruct (Z.lt_ge_cases (timestamp l - timestamp f) 1000) as [Hshort | ]; [| lia].
  assert (Hnone : resolveGroup group = Done None).
  { apply (resolveGroup_none_iff group f l Hf Hl). now left. }
  congruence.
Qed.

Lemma resolveGroup_drawn (group : list FileInfo) (r : GameResult) :
  resolveGroup group = Done (Some r) ->
  exists a b, In a group /\ In b group /\
              startTime r = timestamp a /\ endTime r = timestamp b.
Proof.
  intros H. pose proof (resolveGroup_fields _ _ H)
    as (f & l & Hf & Hl & Hs & He & _).
  destruct (sorted_members _ _ _ Hf Hl). eauto 6.
Qed.

Lemma chronological_across (l1 l2 : list FileInfo) :
  chronological (l1 ++ l2) ->
  forall a b, In a l1 -> In b l2 -> timestamp a <= timestamp b.
Proof.
  unfold chronological. induction l1 as [| x r IH]; simpl; intros Hs a b Ha Hb.
  - contradiction.
  - inversion Hs as [| ? ? Hr Hx]; subst. destruct Ha as [<- | Ha].
    + rewrite Forall_forall in Hx. apply Hx. apply in_or_app. now right.
    + now apply IH.
Qed.

Lemma resolveGroups_chain (gameGroups : list (list FileInfo)) :
  chronological (List.concat gameGroups) ->
  forall rs,
    resolveGroups gameGroups = Done rs ->
    StronglySorted (fun a b => endTime a <= startTime b) rs /\
    Forall (fun r => exists a, In a (List.concat gameGroups) /\
                               startTime r = timestamp a) rs.
Proof.
  induction gameGroups as [| g gs IH]; simpl; intros Hs rs E.
  - injection E as <-. split; constructor.
  - destruct (resolveGroup g) as [| r] eqn:Hg; [discriminate |].
    destruct (resolveGroups gs) as [| rs'] eqn:Hgs; [discriminate |].
    injection E as <-.
    pose proof (chronological_app _ _ Hs) as [_ Hrest].
    destruct (IH Hrest rs' eq_refl) as [Hchain Hdrawn].
    assert (Hdrawn' : Forall (fun r0 => exists a, In a (g ++ List.concat gs) /\
                                                  startTime r0 = timestamp a) rs').
    { eapply Forall_impl; [| exact Hdrawn]. simpl. intros x (a & Ha & Hx).
      exists a. split; [apply in_or_app; now right | assumption]. }
    destruct r as [r |]; [| now split].
    destruct (resolveGroup_drawn _ _ Hg) as (a & b & Ha & Hb & Hsa & Hsb).
    split.
    + constructor; [assumption |].
      eapply Forall_impl; [| exact Hdrawn]. simpl. intros x (c & Hc & Hx).
      rewrite Hsb, Hx. now apply (chronological_across g (List.concat gs)).
    + constructor; [| assumption].
      exists a. split; [apply in_or_app; now left | assumption].
Qed.

Lemma poll_results (env : Retrieval) (d : Disk) :
  fst (aggregateGameResults env d) = [] \/
  exists fileInfos,
    resolveSnapshots fileInfos = Done (fst (aggregateGameResults env d)).
Proof.
  destruct (aggregateGameResults_results env d) as [H | (fi & _ & H & _)]; eauto.
Qed.

Lemma resolveSnapshots_chain (fileInfos : list FileInfo) (rs : list GameResult) :
  resolveSnapshots fileInfos = Done rs ->
  Forall (fun r => startTime r + 1000 <= endTime r) rs /\
  StronglySorted (fun a b => endTime a <= startTime b) rs.
Proof.
  unfold resolveSnapshots. intros E. split.
  - eapply resolveGroups_all; [| exact E]. intros g r _. apply resolveGroup_span.
  - apply (resolveGroups_chain (groupFilesIntoGames fileInfos)); [| exact E].
    rewrite groups_concat. apply sort_by_timestamp_sorted.
Qed.

(** X1. The results [aggregateGameResults] returns come in chronological
    order and do not overlap: each spans at least one second, and each ends
    no later than the next begins. *)
Theorem results_do_not_overlap (env : Retrieval) (d : Disk) :
  Forall (fun r => startTime r + 1000 <= endTime r)
         (fst (aggregateGameResults env d)) /\
  StronglySorted (fun a b => endTime a <= startTime b)
                 (fst (aggregateGameResults env d)).
Proof.
  destruct (poll_results env d) as [-> | (fi & E)].
  - split; constructor.
  - now apply resolveSnapshots_chain in E.
Qed.

(** ** Keys and reconciliation *)

Lemma key_eq_iff (a b : GameResult) : key a = key b <-> shares_key a b.
Proof.
  unfold key, shares_key. split.
  - intros E. injection E. auto.
  - intros [-> ->]. reflexivity.
Qed.

Lemma key_json (g : GameResult) : key (json_game g) = key g.
Proof. reflexivity. Qed.

Lemma keys_json (l : list GameResult) : map key (map json_game l) = map key l.
Proof. rewrite map_map. apply map_ext. intros; apply key_json. Qed.

Lemma known_key_in (history : list GameResult) (g : GameResult) :
  existsb (same_key g) history = true <-> In (key g) (map key history).
Proof.
  rewrite known_key, in_map_iff. split.
  - intros (e & He & Hk). exists e. split; [now apply key_eq_iff | assumption].
  - intros (e & Hk & He). exists e. split; [assumption | now apply key_eq_iff].
Qed.

Lemma mergeGame_keys_nodup (history : list GameResult) (g : GameResult) :
  NoDup (map key history) -> NoDup (map key (mergeGame history g)).
Proof.
  intros Hnd. unfold mergeGame.
  destruct (existsb (same_key g) history) eqn:E; [assumption |].
  rewrite map_app. apply NoDup_app; [assumption | repeat constructor; intros [] |].
  intros k Hk [<- | []]. apply known_key_in in Hk. congruence.
Qed.

Lemma mergeGames_keys_nodup (newGames history : list GameResult) :
  NoDup (map key history) -> NoDup (map key (mergeGames history newGames)).
Proof.
  unfold mergeGames. revert history.
  induction newGames as [| g gs IH]; intros history H; simpl.
  - assumption.
  - apply IH. now apply mergeGame_keys_nodup.
Qed.

Lemma mergeGames_fresh (newGames history : list GameResult) :
  NoDup (map key newGames) ->
  (forall r, In r newGames -> ~ In (key r) (map key history)) ->
  mergeGames history newGames = history ++ newGames.
Proof.
  unfold mergeGames. revert history.
  induction newGames as [| g gs IH]; intros history Hnd Hfresh; simpl.
  - now rewrite app_nil_r.
  - inversion Hnd as [| ? ? Hg Hgs]; subst.
    rewrite mergeGame_new.
    + rewrite IH; [now rewrite <- app_assoc | assumption |].
      intros r Hr Hin. rewrite map_app in Hin. apply in_app_or in Hin.
      destruct Hin as [Hin | [Hin | []]].
      * apply (Hfresh r); [now right | assumption].
      * apply Hg. rewrite Hin. now apply in_map.
    + destruct (existsb (same_key g) history) eqn:E; [| reflexivity].
      apply known_key_in in E. exfalso. apply (Hfresh g); [now left | assumption].
Qed.

Lemma chain_keys_nodup (rs : list GameResult) :
  Forall (fun r => startTime r + 1000 <= endTime r) rs ->
  StronglySorted (fun a b => endTime a <= startTime b) rs ->
  NoDup (map key rs).
Proof.
  intros Hspan Hchain. induction Hchain as [| r rs Hs IH Hr]; simpl.
  - constructor.
  - inversion Hspan as [| ? ? Hr1 Hrs]; subst. constructor; [| now apply IH].
    intros Hin. apply in_map_iff in Hin as (x & Hk & Hx).
    rewrite Forall_forall in Hr. specialize (Hr x Hx).
    apply key_eq_iff in Hk as [Hk _]. lia.
Qed.

Lemma poll_keys_nodup (env : Retrieval) (d : Disk) :
  NoDup (map key (fst (aggregateGameResults env d))).
Proof.
  destruct (poll_results env d) as [-> | (fi & E)]; [constructor |].
  apply resolveSnapshots_chain in E as [H1 H2]. now apply chain_keys_nodup.
Qed.

(** X2. No two results of one poll share a natural key, so none is taken for
    a duplicate of another: merged into a history that holds none of their
    keys, all of them are appended, in order. *)
Theorem poll_results_all_merged (env : Retrieval) (d : Disk)
    (history : list GameResult) :
  (forall r e, In r (fst (aggregateGameResults env d)) -> In e history ->
               ~ shares_key e r) ->
  NoDup (map key (fst (aggregateGameResults env d))) /\
  mergeGames history (fst (aggregateGameResults env d))
  = history ++ fst (aggregateGameResults env d).
Proof.
  intros Hfresh. split; [apply poll_keys_nodup |].
  apply mergeGames_fresh; [apply poll_keys_nodup |].
  intros r Hr Hin. apply in_map_iff in Hin as (e & Hk & He).
  apply (Hfresh r e Hr He). now apply key_eq_iff.
Qed.

Lemma poll_results_all_merged_witness :
  mergeGames [old_game] (fst (aggregateGameResults (Snapshots new_files)
                                                   (disk_with [])))
  = [old_game] ++ fst (aggregateGameResults (Snapshots new_files) (disk_with [])).
Proof.
  apply (poll_results_all_merged (Snapshots new_files) (disk_with []) [old_game]).
  vm_compute. intros r e [<- | []] [<- | []] [H _]. discriminate H.
Defined.

(** X3. Reconciliation never stores a key twice: merged into a history
    whose keys are pairwise distinct, any batch of results leaves the keys
    pairwise distinct, keeps the history as a prefix, and leaves the key of
    every result of the batch present. *)
Theorem merge_keeps_keys_distinct (history newGames : list GameResult) :
  NoDup (map key history) ->
  NoDup (map key (mergeGames history newGames)) /\
  (exists added, mergeGames history newGames = history ++ added /\
                 incl added newGames) /\
  (forall g, In g newGames ->
             In (key g) (map key (mergeGames history newGames))).
Proof.
  intros Hnd. split; [now apply mergeGames_keys_nodup | split].
  - apply mergeGames_extends.
  - intros g Hg. apply known_key_in. now apply mergeGames_covers.
Qed.

Lemma merge_keeps_keys_distinct_witness :
  NoDup (map key (mergeGames [old_game] [old_game; twin_game; twin_game])).
Proof.
  apply (merge_keeps_keys_distinct [old_game] [old_game; twin_game; twin_game]).
  repeat constructor. intros [].
Defined.

(** ** The state across cycles and requests *)

Lemma poll_disk_keys (env : Retrieval) (d : Disk) :
  NoDup (map key (loadPersistedGames d)) ->
  NoDup (map key (loadPersistedGames (snd (aggregateGameResults env d)))).
Proof.
  intros Hd. destruct (aggregateGameResults_disk env d) as [-> | ->];
    [assumption |].
  unfold loadPersistedGames, saveGameResults. cbn [games_json].
  rewrite keys_json. apply poll_keys_nodup.
Qed.

Lemma handle_keys (st : Disk * Memory) (ev : Event) :
  NoDup (map key (loadPersistedGames (fst st))) /\
  NoDup (map key (gameResultsData (snd st))) /\
  leaderboardData (snd st) = aggregateLeaderboardFromGames (gameResultsData (snd st)) ->
  NoDup (map key (loadPersistedGames (fst (handle st ev)))) /\
  NoDup (map key (gameResultsData (snd (handle st ev)))) /\
  leaderboardData (snd (handle st ev))
  = aggregateLeaderboardFromGames (gameResultsData (snd (handle st ev))).
Proof.
  intros (Hd & Hm & Hl). destruct ev as [env | env]; cbn [handle].
  - rewrite updateAllResults_unfold.
    unfold loadPersistedGames at 1.
    cbn [fst snd games_json gameResultsData leaderboardData].
    assert (Hmerged :
      NoDup (map key
        (mergeGames (loadPersistedGames (snd (aggregateGameResults env (fst st))))
                    (fst (aggregateGameResults env (fst st)))))).
    { apply mergeGames_keys_nodup. now apply poll_disk_keys. }
    rewrite keys_json. auto.
  - split; [now apply poll_disk_keys | auto].
Qed.

Lemma run_keys_and_leaderboard (events : list Event) :
  NoDup (map key (loadPersistedGames (fst (run events)))) /\
  NoDup (map key (gameResultsData (snd (run events)))) /\
  leaderboardData (snd (run events))
  = aggregateLeaderboardFromGames (gameResultsData (snd (run events))).
Proof.
  unfold run.
  assert (G : forall st,
    NoDup (map key (loadPersistedGames (fst st))) /\
    NoDup (map key (gameResultsData (snd st))) /\
    leaderboardData (snd st)
    = aggregateLeaderboardFromGames (gameResultsData (snd st)) ->
    NoDup (map key (loadPersistedGames (fst (fold_left handle events st)))) /\
    NoDup (map key (gameResultsData (snd (fold_left handle events st)))) /\
    leaderboardData (snd (fold_left handle events st))
    = aggregateLeaderboardFromGames
        (gameResultsData (snd (fold_left handle events st)))).
  { induction events as [| ev r IH]; intros st H; simpl.
    - exact H.
    - apply IH. now apply handle_keys. }
  apply G. repeat split; constructor.
Qed.

(** Where the names of a history come from. *)
Lemma plain_names_all (history : list GameResult) :
  plain_names history <->
  Forall (fun g => Forall (fun p => name p <> "__proto__"%string) (roster g)) history.
Proof.
  unfold plain_names. induction history as [| g r IH]; simpl.
  - split; constructor.
  - rewrite Forall_app, IH. split.
    + intros [H1 H2]. now constructor.
    + intros H. inversion H; subst. now split.
Qed.

Lemma extractPlayers_plain (team : option (list PlayerEntry)) :
  plain_team team ->
  Forall (fun p => name p <> "__proto__"%string) (extractPlayers team).
Proof.
  destruct team as [l |]; simpl; [| constructor].
  induction 1 as [| q r Hq _ IH]; simpl; [constructor |].
  destruct (keeps_name q); simpl; [| exact IH].
  constructor; [| exact IH]. simpl. intros E. apply Hq.
  destruct (pe_name q) as [[| c t] |]; simpl in E; try discriminate.
  now rewrite E.
Qed.

Lemma group_member_polled (fileInfos g : list FileInfo) (f : FileInfo) :
  In g (groupFilesIntoGames fileInfos) -> In f g -> In f fileInfos.
Proof.
  intros Hg Hf.
  apply (Permutation_in _ (stable_sort_perm by_timestamp fileInfos)).
  rewrite <- groups_concat. apply in_concat. eauto.
Qed.

Lemma resolveSnapshots_plain (fileInfos : list FileInfo) (rs : list GameResult) :
  plain_poll (Snapshots fileInfos) ->
  resolveSnapshots fileInfos = Done rs -> plain_names rs.
Proof.
  intros Hplain E. apply plain_names_all.
  apply (resolveGroups_all _ (groupFilesIntoGames fileInfos)); [| exact E].
  intros g r Hg Hr.
  apply resolveGroup_emits in Hr as (f & l & Hf & Hl & _ & _ & _ & _ & Hp & _).
  destruct (sorted_members g f l Hf Hl) as [_ Hin].
  pose proof (group_member_polled _ _ _ Hg Hin) as Hpolled.
  cbn [plain_poll] in Hplain. rewrite Forall_forall in Hplain.
  destruct (Hplain l Hpolled) as [H1 H2].
  unfold roster. rewrite Hp. cbn [players_team1 players_team2].
  apply Forall_app. split; now apply extractPlayers_plain.
Qed.

Lemma json_games_plain (games : list GameResult) :
  plain_names games -> plain_names (map json_game games).
Proof.
  rewrite !plain_names_all, Forall_map. apply Forall_impl. intros g Hg.
  unfold roster, json_game. cbn [players players_team1 players_team2].
  rewrite <- map_app, Forall_map. exact Hg.
Qed.

Lemma poll_plain (env : Retrieval) (d : Disk) :
  plain_poll env ->
  plain_names (loadPersistedGames d) ->
  plain_names (fst (aggregateGameResults env d)) /\
  plain_names (loadPersistedGames (snd (aggregateGameResults env d))).
Proof.
  intros Hpoll Hd. destruct env as [| | fi]; cbn [aggregateGameResults fst snd];
    try (split; [constructor | assumption]).
  destruct (resolveSnapshots fi) as [| rs] eqn:E; cbn [fst snd];
    [split; [constructor | assumption] |].
  pose proof (resolveSnapshots_plain fi rs Hpoll E) as Hrs.
  split; [exact Hrs |].
  unfold loadPersistedGames, saveGameResults. cbn [games_json].
  now apply json_games_plain.
Qed.

Lemma handle_plain (st : Disk * Memory) (ev : Event) :
  plain_poll (poll_of ev) ->
  plain_names (loadPersistedGames (fst st)) /\
  plain_names (gameResultsData (snd st)) ->
  plain_names (loadPersistedGames (fst (handle st ev))) /\
  plain_names (gameResultsData (snd (handle st ev))).
Proof.
  intros Hpoll [Hd Hm]. destruct ev as [env | env]; cbn [handle poll_of] in *.
  - rewrite updateAllResults_unfold.
    unfold loadPersistedGames at 1.
    cbn [fst snd games_json gameResultsData].
    destruct (poll_plain env (fst st) Hpoll Hd) as [Hnew Hdisk].
    assert (Hmerged :
      plain_names
        (mergeGames (loadPersistedGames (snd (aggregateGameResults env (fst st))))
                    (fst (aggregateGameResults env (fst st))))).
    { apply plain_names_all. apply mergeGames_all; now apply plain_names_all. }
    split; [now apply json_games_plain | exact Hmerged].
  - cbn [fst snd]. split; [| exact Hm].
    now apply (poll_plain env (fst st) Hpoll Hd).
Qed.

Lemma run_plain (events : list Event) :
  Forall (fun ev => plain_poll (poll_of ev)) events ->
  plain_names (loadPersistedGames (fst (run events))) /\
  plain_names (gameResultsData (snd (run events))).
Proof.
  unfold run.
  assert (G : forall st,
    Forall (fun ev => plain_poll (poll_of ev)) events ->
    plain_names (loadPersistedGames (fst st)) /\
    plain_names (gameResultsData (snd st)) ->
    plain_names (loadPersistedGames (fst (fold_left handle events st))) /\
    plain_names (gameResultsData (snd (fold_left handle events st)))).
  { induction events as [| ev r IH]; intros st Hev H; simpl.
    - exact H.
    - inversion Hev as [| ? ? Hplain Hrest]; subst.
      apply IH; [exact Hrest | now apply handle_plain]. }
  intros Hev. apply G; [exact Hev |]. split; constructor.
Qed.

(** X4. From the first start on, whatever the sequence of update cycles and
    [/gameresults] requests: no natural key occurs twice in [games.json] or
    in the history held in memory.  When no poll lists a player named
    ["__proto__"], no roster of the history names one either, and the
    leaderboard held in memory is the one computed from the history held in
    memory. *)
Theorem state_invariant (events : list Event) :
  NoDup (map key (loadPersistedGames (fst (run events)))) /\
  NoDup (map key (gameResultsData (snd (run events)))) /\
  (Forall (fun ev => plain_poll (poll_of ev)) events ->
   plain_names (gameResultsData (snd (run events))) /\
   leaderboardData (snd (run events))
   = aggregateLeaderboardFromGames (gameResultsData (snd (run events)))).
Proof.
  destruct (run_keys_and_leaderboard events) as (Hd & Hm & Hl).
  split; [exact Hd | split; [exact Hm |]].
  intros Hev. split; [| exact Hl].
  now apply run_plain.
Qed.

(** A cycle and a request on the snapshots of one match. *)
Lemma state_invariant_witness :
  let events := [UpdateCycle (Snapshots new_files);
                 GameResultsRequest (Snapshots alice_files)] in
  plain_names (gameResultsData (snd (run events))) /\
  leaderboardData (snd (run events))
  = aggregateLeaderboardFromGames (gameResultsData (snd (run events))).
Proof.
  intros events.
  apply (proj2 (proj2 (state_invariant events))).
  repeat constructor; simpl; discriminate.
Defined.

Lemma resolveSnapshots_done (fileInfos : list FileInfo) :
  exists rs, resolveSnapshots fileInfos = Done rs.
Proof. apply resolveGroups_defined, groups_nonempty. Qed.

Lemma merge_fresh_into_itself (rs : list GameResult) :
  mergeGames (map json_game rs) rs = map json_game rs.
Proof.
  apply mergeGames_known. intros g Hg. apply known_key.
  exists (json_game g). split; [now apply in_map | split; reflexivity].
Qed.

(** X5. What a cycle leaves as history.  When the poll delivers snapshots
    the history, in memory and in [games.json], is the freshly resolved
    results as they read back from the file, whatever was stored before;
    when the poll fails or finds no backup file it is the stored history. *)
Theorem history_after_cycle (st : Disk * Memory) :
  (forall fileInfos,
      exists rs,
        resolveSnapshots fileInfos = Done rs /\
        gameResultsData (snd (updateAllResults (Snapshots fileInfos) st))
        = map json_game rs /\
        loadPersistedGames (fst (updateAllResults (Snapshots fileInfos) st))
        = map json_game (map json_game rs)) /\
  gameResultsData (snd (updateAllResults RetrievalFailed st))
  = loadPersistedGames (fst st) /\
  gameResultsData (snd (updateAllResults NoBackupFiles st))
  = loadPersistedGames (fst st).
Proof.
  split; [| split; rewrite updateAllResults_unfold; reflexivity].
  intros fileInfos. destruct (resolveSnapshots_done fileInfos) as [rs E].
  exists rs. split; [exact E |].
  rewrite updateAllResults_unfold. unfold aggregateGameResults. rewrite E.
  unfold loadPersistedGames, saveGameResults.
  cbn [fst snd games_json gameResultsData].
  rewrite merge_fresh_into_itself. auto.
Qed.

Lemma cycle_with_poll (fileInfos : list FileInfo) (st : Disk * Memory)
    (rs : list GameResult) :
  resolveSnapshots fileInfos = Done rs ->
  updateAllResults (Snapshots fileInfos) st =
    ({| games_json := Some (map json_game (map json_game rs));
        leaderboard_json := aggregateLeaderboardFromGames (map json_game rs) |},
     {| gameResultsData := map json_game rs;
        leaderboardData := aggregateLeaderboardFromGames (map json_game rs) |}).
Proof.
  intros E. rewrite updateAllResults_unfold. unfold aggregateGameResults.
  rewrite E. unfold loadPersistedGames, saveGameResults.
  cbn [fst snd games_json]. now rewrite merge_fresh_into_itself.
Qed.

Lemma cycle_without_poll (env : Retrieval) (st : Disk * Memory) :
  fst (aggregateGameResults env (fst st)) = [] ->
  snd (aggregateGameResults env (fst st)) = fst st ->
  updateAllResults env st =
    ({| games_json := Some (map json_game (loadPersistedGames (fst st)));
        leaderboard_json :=
          aggregateLeaderboardFromGames (loadPersistedGames (fst st)) |},
     {| gameResultsData := loadPersistedGames (fst st);
        leaderboardData :=
          aggregateLeaderboardFromGames (loadPersistedGames (fst st)) |}).
Proof.
  intros E1 E2. rewrite updateAllResults_unfold. now rewrite E1, E2.
Qed.

Lemma load_stored (games : list GameResult) (l : list LeaderboardEntry) :
  loadPersistedGames {| games_json := Some games; leaderboard_json := l |} = games.
Proof. reflexivity. Qed.

(** X6. Repeating a cycle against the same poll changes nothing: when what
    is in [games.json] is what [JSON.parse] returns for it, two cycles in a
    row leave the state that one leaves. *)
Theorem cycle_idempotent (env : Retrieval) (st : Disk * Memory) :
  map json_game (loadPersistedGames (fst st)) = loadPersistedGames (fst st) ->
  updateAllResults env (updateAllResults env st) = updateAllResults env st.
Proof.
  intros Hjson.
  assert (Hquiet : forall e,
    (forall d, aggregateGameResults e d = ([], d)) ->
    updateAllResults e (updateAllResults e st) = updateAllResults e st).
  { intros e He.
    rewrite (cycle_without_poll e st) by (now rewrite He).
    rewrite cycle_without_poll by (now rewrite He).
    cbn [fst]. rewrite !load_stored. now rewrite !Hjson. }
  destruct env as [| | fi].
  - now apply Hquiet.
  - now apply Hquiet.
  - destruct (resolveSnapshots_done fi) as [rs E].
    now rewrite !(cycle_with_poll fi _ rs E).
Qed.

Lemma cycle_idempotent_witness :
  updateAllResults NoBackupFiles
    (updateAllResults NoBackupFiles (disk_with [old_game], empty_memory))
  = updateAllResults NoBackupFiles (disk_with [old_game], empty_memory).
Proof.
  apply (cycle_idempotent NoBackupFiles (disk_with [old_game], empty_memory)).
  reflexivity.
Defined.

(** ** Persistence *)

Lemma json_num_idem (a : Js.num) : json_num (json_num a) = json_num a.
Proof. now destruct a. Qed.

Lemma json_num_ok (a : Js.num) : num_ok a -> json_num a = a.
Proof. unfold num_ok. destruct a; simpl; congruence. Qed.

Lemma json_game_idem (g : GameResult) : json_game (json_game g) = json_game g.
Proof.
  unfold json_game. simpl. rewrite !json_num_idem, !map_map.
  f_equal. f_equal; apply map_ext; intros p; unfold json_player; simpl;
    now rewrite !json_num_idem.
Qed.

Lemma json_players_ok (l : list PlayerStat) :
  Forall player_ok l -> map json_player l = l.
Proof.
  induction 1 as [| p r [Hk Hd] _ IH]; simpl; [reflexivity |].
  rewrite IH. f_equal. destruct p as [n k d]. unfold json_player. simpl in *.
  now rewrite !json_num_ok.
Qed.

Lemma json_game_ok (g : GameResult) : nan_free g -> json_game g = g.
Proof.
  intros (H1 & H2 & H3 & H4).
  destruct g as [s e du m [t1 t2] [p1 p2] w l]. unfold json_game. simpl in *.
  now rewrite !json_num_ok, !json_players_ok.
Qed.

(** X7. What is saved to [games.json] reads back unchanged when no numeric
    field is [NaN]; in any case what reads back is stable: saving and
    loading it again changes nothing more. *)
Theorem save_load_round_trip (games : list GameResult) (d d' : Disk) :
  (Forall nan_free games ->
   loadPersistedGames (saveGameResults games d) = games) /\
  loadPersistedGames
    (saveGameResults (loadPersistedGames (saveGameResults games d)) d')
  = loadPersistedGames (saveGameResults games d).
Proof.
  unfold loadPersistedGames, saveGameResults. cbn [games_json]. split.
  - induction 1 as [| g r Hg _ IH]; simpl; [reflexivity |].
    now rewrite IH, json_game_ok.
  - rewrite map_map. apply map_ext. apply json_game_idem.
Qed.

(** ** Scores *)

Lemma toString_nonempty (z : Z) : exists c r, Js.toString z = String c r.
Proof.
  pose proof (JsFacts.parseInt_toString z) as P.
  destruct (Js.toString z) as [| c r]; [discriminate P | eauto].
Qed.

Lemma parseInt_field (a : option Z) :
  Js.parseInt (Js.or_else (option_map Js.toString a) "0") = Js.Num (opt_value a).
Proof.
  destruct a as [z |]; simpl; [| reflexivity].
  destruct (toString_nonempty z) as (c & r & E).
  rewrite E. simpl. rewrite <- E. apply JsFacts.parseInt_toString.
Qed.

Lemma add_numeral_component (s1 s2 : Z) (c : option (option Z * option Z)) :
  add_component {| team1 := Js.Num s1; team2 := Js.Num s2 |}
                (option_map numeral_entry c)
  = {| team1 := Js.Num (s1 + fst (component_value c));
       team2 := Js.Num (s2 + snd (component_value c)) |}.
Proof.
  destruct c as [[a b] |]; simpl.
  - unfold add_component, numeral_entry. cbn [se_team1 se_team2 fst snd team1 team2].
    now rewrite !parseInt_field.
  - now rewrite !Z.add_0_r.
Qed.

(** X8. [getFinalScore] adds up the components that are present: with
    numeral fields, each team's score is the sum of its fields over the
    present components, a missing field and a missing component counting
    as 0. *)
Theorem getFinalScore_sum (m : option string)
    (c1 c2 c3 : option (option Z * option Z))
    (p1 p2 : option (list PlayerEntry)) :
  getFinalScore {| sf_map := m;
                   FirstHalfScore := option_map numeral_entry c1;
                   SecondHalfScore := option_map numeral_entry c2;
                   OvertimeScore := option_map numeral_entry c3;
                   PlayersOnTeam1 := p1;
                   PlayersOnTeam2 := p2 |}
  = {| team1 := Js.Num (fst (component_value c1) + fst (component_value c2)
                        + fst (component_value c3));
       team2 := Js.Num (snd (component_value c1) + snd (component_value c2)
                        + snd (component_value c3)) |}.
Proof.
  unfold getFinalScore.
  cbn [FirstHalfScore SecondHalfScore OvertimeScore].
  now rewrite !add_numeral_component.
Qed.

Lemma parseInt_not_null (s : string) : Js.parseInt s <> Js.Null.
Proof.
  assert (R : forall t, Js.read_digits t <> Js.Null).
  { intros t. unfold Js.read_digits.
    destruct (Js.digit_prefix t); [discriminate |].
    destruct (NilEmpty.uint_of_string _); discriminate. }
  assert (N : forall t, Js.negate (Js.read_digits t) <> Js.Null).
  { intros t. specialize (R t). destruct (Js.read_digits t); simpl; congruence. }
  unfold Js.parseInt.
  destruct (Js.skip_spaces s) as [| c r]; [apply R |].
  destruct c as [b0 b1 b2 b3 b4 b5 b6 b7].
  destruct b0, b1, b2, b3, b4, b5, b6, b7; apply R || apply N.
Qed.

Lemma add_nan_iff (a b : Js.num) :
  a <> Js.Null -> b <> Js.Null ->
  Js.add a b <> Js.Null /\
  (Js.add a b = Js.NaN <-> a = Js.NaN \/ b = Js.NaN).
Proof.
  intros Ha Hb.
  destruct a as [x | |]; [| | congruence];
    (destruct b as [y | |]; [| | congruence]); cbn [Js.add Js.to_number];
    (split; [discriminate |]); split; intros E;
    try discriminate E; auto;
    destruct E as [E | E]; discriminate E.
Qed.

Lemma components_in (saveFile : SaveFile) (e : ScoreEntry) :
  In e (components saveFile) <->
  FirstHalfScore saveFile = Some e \/ SecondHalfScore saveFile = Some e \/
  OvertimeScore saveFile = Some e.
Proof.
  unfold components.
  destruct (FirstHalfScore saveFile), (SecondHalfScore saveFile),
           (OvertimeScore saveFile); simpl; intuition congruence.
Qed.

Lemma add_component_team1 (acc : Score) (c : option ScoreEntry) :
  team1 acc <> Js.Null ->
  team1 (add_component acc c) <> Js.Null /\
  (team1 (add_component acc c) = Js.NaN <->
   team1 acc = Js.NaN \/
   exists e, c = Some e /\ Js.parseInt (Js.or_else (se_team1 e) "0") = Js.NaN).
Proof.
  intros Hacc. destruct c as [e |]; cbn [add_component team1].
  - destruct (add_nan_iff (team1 acc) (Js.parseInt (Js.or_else (se_team1 e) "0"))
                Hacc (parseInt_not_null _)) as [Hn Hiff].
    split; [exact Hn |]. rewrite Hiff. split.
    + intros [H | H]; [now left | right; eauto].
    + intros [H | (e' & E & H)]; [now left | right; congruence].
  - split; [exact Hacc |]. split; [now left |].
    intros [H | (e' & E & _)]; [exact H | discriminate E].
Qed.

Lemma add_component_team2 (acc : Score) (c : option ScoreEntry) :
  team2 acc <> Js.Null ->
  team2 (add_component acc c) <> Js.Null /\
  (team2 (add_component acc c) = Js.NaN <->
   team2 acc = Js.NaN \/
   exists e, c = Some e /\ Js.parseInt (Js.or_else (se_team2 e) "0") = Js.NaN).
Proof.
  intros Hacc. destruct c as [e |]; cbn [add_component team2].
  - destruct (add_nan_iff (team2 acc) (Js.parseInt (Js.or_else (se_team2 e) "0"))
                Hacc (parseInt_not_null _)) as [Hn Hiff].
    split; [exact Hn |]. rewrite Hiff. split.
    + intros [H | H]; [now left | right; eauto].
    + intros [H | (e' & E & H)]; [now left | right; congruence].
  - split; [exact Hacc |]. split; [now left |].
    intros [H | (e' & E & _)]; [exact H | discriminate E].
Qed.

(** X9. One unreadable field spoils a total: a team's final score is [NaN]
    exactly when some present component has a field for that team that
    [parseInt] cannot read; it is never [null]. *)
Theorem getFinalScore_nan (saveFile : SaveFile) :
  (team1 (getFinalScore saveFile) = Js.NaN <->
   exists e, In e (components saveFile) /\
             Js.parseInt (Js.or_else (se_team1 e) "0") = Js.NaN) /\
  (team2 (getFinalScore saveFile) = Js.NaN <->
   exists e, In e (components saveFile) /\
             Js.parseInt (Js.or_else (se_team2 e) "0") = Js.NaN) /\
  team1 (getFinalScore saveFile) <> Js.Null /\
  team2 (getFinalScore saveFile) <> Js.Null.
Proof.
  unfold getFinalScore. cbv zeta.
  set (s0 := {| team1 := Js.Num 0; team2 := Js.Num 0 |}).
  set (s1 := add_component s0 (FirstHalfScore saveFile)).
  set (s2 := add_component s1 (SecondHalfScore saveFile)).
  destruct (add_component_team1 s0 (FirstHalfScore saveFile)) as [A1 B1];
    [discriminate |].
  destruct (add_component_team1 s1 (SecondHalfScore saveFile) A1) as [A2 B2].
  destruct (add_component_team1 s2 (OvertimeScore saveFile) A2) as [A3 B3].
  destruct (add_component_team2 s0 (FirstHalfScore saveFile)) as [C1 D1];
    [discriminate |].
  destruct (add_component_team2 s1 (SecondHalfScore saveFile) C1) as [C2 D2].
  destruct (add_component_team2 s2 (OvertimeScore saveFile) C2) as [C3 D3].
  fold s1 in B1, D1. fold s2 in B2, D2.
  split; [| split; [| split; assumption]].
  - rewrite B3, B2, B1. split.
    + intros [[[H | (e & E & H)] | (e & E & H)] | (e & E & H)];
        try discriminate H; exists e; rewrite components_in; auto.
    + intros (e & Hin & H). apply components_in in Hin as [E | [E | E]]; eauto 8.
  - rewrite D3, D2, D1. split.
    + intros [[[H | (e & E & H)] | (e & E & H)] | (e & E & H)];
        try discriminate H; exists e; rewrite components_in; auto.
    + intros (e & Hin & H). apply components_in in Hin as [E | [E | E]]; eauto 8.
Qed.

(** ** Rosters *)

Lemma keeps_name_proper (p : PlayerEntry) :
  keeps_name p = true -> proper_name (Js.or_else (pe_name p) "").
Proof.
  unfold keeps_name, proper_name. intros H.
  apply andb_true_iff in H as [H1 H2].
  apply negb_true_iff in H1, H2.
  apply String.eqb_neq in H1, H2. auto.
Qed.

Lemma roster_extraction_proper (team : option (list PlayerEntry)) :
  Forall (fun p => proper_name (name p)) (extractPlayers team).
Proof.
  destruct team as [l |]; simpl; [| constructor].
  induction l as [| p r IH]; simpl; [constructor |].
  destruct (keeps_name p) eqn:E; simpl; [| assumption].
  constructor; [now apply keeps_name_proper | assumption].
Qed.

Lemma extractPlayers_app (l1 l2 : list PlayerEntry) :
  extractPlayers (Some (l1 ++ l2))
  = extractPlayers (Some l1) ++ extractPlayers (Some l2).
Proof. cbn [extractPlayers]. apply flat_map_app. Qed.

Lemma keeps_name_iff (p : PlayerEntry) :
  keeps_name p = true <-> proper_name (Js.or_else (pe_name p) "").
Proof.
  split; [apply keeps_name_proper |].
  unfold keeps_name, proper_name. intros [H1 H2].
  apply andb_true_iff. split; apply negb_true_iff, String.eqb_neq; assumption.
Qed.

(** X10. What the roster loops extract from a team, entry by entry and in
    the order of the team: an entry whose name is proper (present, not
    empty, not ["Unknown"]) gives one player, with that name and with the
    kills and deaths that [parseInt] reads from its fields (["0"] for a
    missing or empty field), placed between what the entries before it and
    the entries after it give; any other entry gives nothing; a missing
    team gives no player.  Hence every extracted name is proper and a
    roster is no longer than its team.  The names listed for a session in
    progress are the names of the players extracted from the same team. *)
Theorem roster_extraction (team : option (list PlayerEntry)) :
  (forall before p after,
      team = Some (before ++ p :: after) ->
      (proper_name (Js.or_else (pe_name p) "") ->
       extractPlayers team
       = extractPlayers (Some before)
         ++ {| name := Js.or_else (pe_name p) "";
               kills := Js.parseInt (Js.or_else (pe_kills p) "0");
               deaths := Js.parseInt (Js.or_else (pe_deaths p) "0") |}
         :: extractPlayers (Some after)) /\
      (~ proper_name (Js.or_else (pe_name p) "") ->
       extractPlayers team
       = extractPlayers (Some before) ++ extractPlayers (Some after))) /\
  (team = None \/ team = Some [] -> extractPlayers team = []) /\
  Forall (fun p => proper_name (name p)) (extractPlayers team) /\
  (forall l, team = Some l ->
             (List.length (extractPlayers team) <= List.length l)%nat) /\
  playerNames team = map name (extractPlayers team).
Proof.
  split; [| split; [| split; [| split]]].
  - intros before p after ->.
    rewrite extractPlayers_app.
    change (p :: after) with ([p] ++ after). rewrite extractPlayers_app.
    cbn [extractPlayers flat_map]. rewrite app_nil_r.
    split; intros Hp.
    + apply keeps_name_iff in Hp. rewrite Hp. reflexivity.
    + destruct (keeps_name p) eqn:E; [| reflexivity].
      apply keeps_name_iff in E. contradiction.
  - intros [-> | ->]; reflexivity.
  - apply roster_extraction_proper.
  - intros l ->. cbn [extractPlayers].
    induction l as [| p r IH]; simpl; [lia |].
    destruct (keeps_name p); simpl; lia.
  - destruct team as [l |]; simpl; [| reflexivity].
    induction l as [| p r IH]; simpl; [reflexivity |].
    destruct (keeps_name p); simpl; now rewrite IH.
Qed.

(** X11. In every emitted result, [winner] and [loser] are either both
    empty or, together, the names of all the recorded players; every name
    they list is a proper name. *)
Theorem winner_loser_cover (group : list FileInfo) (r : GameResult) :
  resolveGroup group = Done (Some r) ->
  ((winner r = [] /\ loser r = []) \/
   Permutation (winner r ++ loser r) (map name (roster r))) /\
  Forall proper_name (winner r ++ loser r) /\
  Forall (fun p => proper_name (name p)) (roster r).
Proof.
  intros H. apply resolveGroup_emits in H
    as (f & l & _ & _ & _ & _ & _ & _ & Hp & Hw).
  injection Hw as Hwin Hlose.
  assert (Hroster : Forall (fun p => proper_name (name p)) (roster r)).
  { unfold roster. rewrite Hp. simpl. apply Forall_app.
    split; apply roster_extraction_proper. }
  assert (Hcases :
    (winner r = [] /\ loser r = []) \/
    Permutation (winner r ++ loser r) (map name (roster r))).
  { rewrite Hwin, Hlose. unfold decide, roster.
    destruct (negb _); [| now left]. right.
    destruct (Js.gt _ _); simpl; rewrite map_app;
      [reflexivity | apply Permutation_app_comm]. }
  split; [exact Hcases | split; [| exact Hroster]].
  destruct Hcases as [[-> ->] | Hperm]; [constructor |].
  eapply Permutation_Forall; [symmetry; exact Hperm |].
  now apply Forall_map.
Qed.

Lemma winner_loser_cover_witness :
  exists r, resolveGroup new_files = Done (Some r) /\
            Forall proper_name (winner r ++ loser r).
Proof.
  eexists. split; [vm_compute; reflexivity |].
  apply (winner_loser_cover new_files _ eq_refl).
Defined.

(** ** Durations *)

Lemma string_append_inj (a b x y : string) :
  String.length a = String.length b ->
  (a ++ x)%string = (b ++ y)%string -> a = b /\ x = y.
Proof.
  revert b. induction a as [| c a IH]; intros [| c' b] Hlen E;
    simpl in *; try discriminate.
  - auto.
  - injection E as -> E. injection Hlen as Hlen.
    destruct (IH b Hlen E) as [-> ->]. auto.
Qed.

(** A field padded to two characters reads back as its number. *)
Lemma parseInt_padded (x : Z) :
  Js.parseInt (Js.padStart0 2 (Js.toString x)) = Js.Num x.
Proof.
  pose proof (JsFacts.parseInt_toString x) as P.
  unfold Js.padStart0.
  destruct (Js.toString x) as [| c [| c' r]]; simpl.
  - discriminate P.
  - destruct c as [b0 b1 b2 b3 b4 b5 b6 b7].
    destruct b0, b1, b2, b3, b4, b5, b6, b7;
      vm_compute in P; try discriminate P;
      injection P as <-; reflexivity.
  - exact P.
Qed.

Lemma duration_fields (seconds : Z) :
  0 <= seconds ->
  exists A B C,
    formatDuration seconds = (A ++ ":" ++ B ++ ":" ++ C)%string /\
    String.length B = 2%nat /\ String.length C = 2%nat /\
    Js.parseInt A = Js.Num (seconds / 3600) /\
    Js.parseInt B = Js.Num (seconds mod 3600 / 60) /\
    Js.parseInt C = Js.Num (seconds mod 60).
Proof.
  intros Hs. unfold formatDuration. rewrite JsFacts.parseInt_toString.
  rewrite !Z.rem_mod_nonneg by lia.
  assert (Hm : 0 <= seconds mod 3600 / 60 < 60).
  { pose proof (Z.mod_pos_bound seconds 3600 ltac:(lia)).
    split; [apply Z.div_pos; lia | apply Z.div_lt_upper_bound; lia]. }
  assert (Hc : 0 <= seconds mod 60 < 60) by (apply Z.mod_pos_bound; lia).
  pose proof (two_digits_ok_all _ Hm) as Bok.
  pose proof (two_digits_ok_all _ Hc) as Cok.
  unfold two_digits_ok in Bok, Cok.
  apply andb_true_iff in Bok as [Blen _].
  apply andb_true_iff in Cok as [Clen _].
  apply Nat.eqb_eq in Blen. apply Nat.eqb_eq in Clen.
  eexists _, _, _. split; [reflexivity |].
  repeat split; try assumption; apply parseInt_padded.
Qed.

(** X12. [formatDuration] tells durations apart: two spans that are not
    negative are written alike only if they are the same number of seconds;
    in particular only 0 is written ["00:00:00"]. *)
Theorem formatDuration_injective (a b : Z) :
  0 <= a -> 0 <= b ->
  (formatDuration a = formatDuration b -> a = b) /\
  (formatDuration a = "00:00:00"%string <-> a = 0).
Proof.
  intros Ha Hb.
  assert (Hinj : forall x y, 0 <= x -> 0 <= y ->
                             formatDuration x = formatDuration y -> x = y).
  { intros x y Hx Hy E.
    destruct (duration_fields x Hx) as (A & B & C & EA & LB & LC & PA & PB & PC).
    destruct (duration_fields y Hy) as (A' & B' & C' & EA' & LB' & LC' & PA' & PB' & PC').
    rewrite EA, EA' in E.
    assert (HlenA : String.length A = String.length A').
    { apply (f_equal String.length) in E.
      rewrite !string_length_append, LB, LC, LB', LC' in E. simpl in E. lia. }
    destruct (string_append_inj _ _ _ _ HlenA E) as [-> E1].
    simpl in E1. injection E1 as E1.
    destruct (string_append_inj B B' _ _ ltac:(congruence) E1) as [-> E2].
    simpl in E2. injection E2 as ->.
    assert (H1 : x / 3600 = y / 3600) by congruence.
    assert (H2 : x mod 3600 / 60 = y mod 3600 / 60) by congruence.
    assert (H3 : x mod 60 = y mod 60) by congruence.
    pose proof (Z.div_mod x 3600 ltac:(lia)).
    pose proof (Z.div_mod y 3600 ltac:(lia)).
    pose proof (Z.div_mod (x mod 3600) 60 ltac:(lia)).
    pose proof (Z.div_mod (y mod 3600) 60 ltac:(lia)).
    pose proof (Z.mod_pos_bound (x mod 3600) 60 ltac:(lia)).
    pose proof (Z.mod_pos_bound (y mod 3600) 60 ltac:(lia)).
    assert (M1 : (x mod 3600) mod 60 = x mod 60).
    { apply (Z.mod_unique_pos x 60 (60 * (x / 3600) + x mod 3600 / 60)); lia. }
    assert (M2 : (y mod 3600) mod 60 = y mod 60).
    { apply (Z.mod_unique_pos y 60 (60 * (y / 3600) + y mod 3600 / 60)); lia. }
    lia. }
  split; [now apply Hinj |].
  split; [| intros ->; reflexivity].
  intros E. apply Hinj; [assumption | lia | exact E].
Qed.

Lemma formatDuration_injective_witness :
  formatDuration 3725 = "00:00:00"%string <-> 3725 = 0.
Proof.
  apply (formatDuration_injective 3725 0); lia.
Defined.

(** ** The leaderboard as a whole *)

Lemma tally_of_entry (history : list GameResult) (t : Tally) :
  In t (tempLeaderboard history) ->
  appearances (entry_name t) history <> [] /\
  t = expected_tally (entry_name t) (appearances (entry_name t) history)
                     (winning_appearances (entry_name t) history).
Proof.
  intros Ht. destruct (tempLeaderboard_tallies history) as [Hnd Hlk _].
  pose proof (lookup_in _ _ Hnd Ht) as Hl. rewrite Hlk in Hl.
  unfold summary in Hl. fold (appearances (entry_name t) history) in Hl.
  fold (winning_appearances (entry_name t) history) in Hl.
  destruct (inherited (entry_name t)); [discriminate |].
  destruct (appearances (entry_name t) history) eqn:E; [discriminate |].
  split; [discriminate | congruence].
Qed.







(** *** The order of the games does not matter *)











(** With a player named ["__proto__"] the order matters: the call throws
    when another game follows the one that names the player, and not when
    that game comes last. *)
Lemma order_matters_after_proto :
  Permutation [proto_game; old_game] [old_game; proto_game] /\
  throws_after_proto [proto_game; old_game] = true /\
  throws_after_proto [old_game; proto_game] = false.
Proof. split; [apply perm_swap | split; reflexivity]. Qed.

(** *** The order of the entries *)

Section SortTotal.
Context {A : Type} (le : A -> A -> bool) (P : A -> Prop).
Hypothesis le_total : forall x y, P x -> P y -> le x y = false -> le y x = true.
Hypothesis le_trans :
  forall x y z, P x -> P y -> P z -> le x y = true -> le y z = true -> le x z = true.

Lemma insert_sorted_ordered (x : A) (l : list A) :
  P x -> Forall P l ->
  StronglySorted (fun a b => le a b = true) l ->
  StronglySorted (fun a b => le a b = true) (insert_sorted le x l).
Proof.
  intros Hx Hl Hs. induction Hs as [| y r Hs IH Hy]; simpl.
  - repeat constructor.
  - inversion Hl as [| ? ? Py Pr]; subst.
    destruct (le x y) eqn:E.
    + constructor; [now constructor |].
      constructor; [assumption |].
      rewrite Forall_forall in *. intros z Hz.
      apply (le_trans x y z); auto.
    + constructor; [now apply IH |].
      eapply Permutation_Forall; [symmetry; apply insert_sorted_perm |].
      constructor; [now apply le_total | assumption].
Qed.

Lemma stable_sort_ordered (l : list A) :
  Forall P l -> StronglySorted (fun a b => le a b = true) (stable_sort le l).
Proof.
  induction 1 as [| x r Hx Hr IH]; simpl; [constructor |].
  apply insert_sorted_ordered; try assumption.
  eapply Permutation_Forall; [symmetry; apply stable_sort_perm | assumption].
Qed.
End SortTotal.

Lemma pow10_pos (p : nat) : 0 < 10 ^ Z.of_nat p.
Proof. apply Z.pow_pos_nonneg; lia. Qed.

Lemma by_kd_desc_total (x y : LeaderboardEntry) :
  kd_numeric x -> kd_numeric y -> by_kd_desc x y = false -> by_kd_desc y x = true.
Proof.
  intros (nx & px & Ex) (ny & py & Ey). unfold by_kd_desc. rewrite Ex, Ey.
  intros H. apply Z.leb_gt in H. apply Z.leb_le. lia.
Qed.

Lemma by_kd_desc_trans (x y z : LeaderboardEntry) :
  kd_numeric x -> kd_numeric y -> kd_numeric z ->
  by_kd_desc x y = true -> by_kd_desc y z = true -> by_kd_desc x z = true.
Proof.
  intros (nx & px & Ex) (ny & py & Ey) (nz & pz & Ez).
  unfold by_kd_desc. rewrite Ex, Ey, Ez. intros H1 H2.
  apply Z.leb_le in H1, H2. apply Z.leb_le.
  pose proof (pow10_pos px). pose proof (pow10_pos py). pose proof (pow10_pos pz).
  apply (Z.mul_le_mono_pos_r _ _ (10 ^ Z.of_nat py)); [assumption |].
  transitivity (ny * 10 ^ Z.of_nat px * 10 ^ Z.of_nat pz); nia.
Qed.

Lemma by_kd_desc_ge (x y : LeaderboardEntry) :
  kd_numeric x -> kd_numeric y -> by_kd_desc x y = true -> kd_ge x y.
Proof.
  intros (nx & px & Ex) (ny & py & Ey). unfold by_kd_desc. rewrite Ex, Ey.
  intros H. apply Z.leb_le in H. exists nx, px, ny, py. auto.
Qed.

Lemma div_toFixed2_parses (k d : Z) :
  0 < d -> exists n, parseFloat (div_toFixed2 (Js.Num k) d) = Some (n, 2%nat).
Proof.
  intros Hd. unfold div_toFixed2. cbn [Js.to_number].
  destruct (Z.ltb_spec k 0).
  - rewrite parseFloat_negative, parse_unsigned_fixed2
      by (apply hundredths_nonneg; lia). eauto.
  - rewrite parseFloat_fixed2 by (apply hundredths_nonneg; lia). eauto.
Qed.

Lemma kd_of_numeric (t : Tally) :
  (exists k, totalKills t = Js.Num k) ->
  (exists d, totalDeaths t = Js.Num d) ->
  kd_numeric (with_kd t).
Proof.
  intros [k Hk] [d Hdt]. unfold kd_numeric, with_kd, kd_of. cbn [kd].
  rewrite Hk, Hdt. cbn [Js.gt Js.to_number].
  destruct (Z.ltb_spec 0 d).
  - destruct (div_toFixed2_parses k d) as [n Hn]; [assumption |].
    exists n, 2%nat. exact Hn.
  - exists k, 0%nat. reflexivity.
Qed.

Lemma appearances_in (n : string) (history : list GameResult) (p : PlayerStat) :
  In p (appearances n history) ->
  exists g, In g history /\ In p (roster g).
Proof.
  unfold appearances, named. intros H. apply filter_In in H as [H _].
  apply in_flat_map in H. exact H.
Qed.

(** X15. When no kill or death count in the history is [NaN], the
    leaderboard comes sorted by [kd], highest first: every entry's [kd]
    reads as a number, at least as large as that of every entry after it. *)
Theorem leaderboard_sorted (history : list GameResult) :
  Forall (fun g => Forall player_ok (roster g)) history ->
  StronglySorted kd_ge (aggregateLeaderboardFromGames history).
Proof.
  intros Hok.
  assert (Hnum : Forall kd_numeric
                   (map with_kd (object_values (tempLeaderboard history)))).
  { apply Forall_forall. intros e He. apply in_map_iff in He as (t & <- & Ht).
    apply (Permutation_in _ (object_values_perm _)) in Ht.
    destruct (tally_of_entry history t Ht) as [_ Et].
    assert (Hp : forall p, In p (appearances (entry_name t) history) -> player_ok p).
    { intros p Hp. apply appearances_in in Hp as (g & Hg & Hin).
      rewrite Forall_forall in Hok. specialize (Hok g Hg).
      rewrite Forall_forall in Hok. now apply Hok. }
    apply kd_of_numeric; rewrite Et; cbn [totalKills totalDeaths expected_tally];
      eexists; apply sum_num_numbers; apply Forall_map, Forall_forall;
      intros p Hin; now apply Hp. }
  unfold aggregateLeaderboardFromGames.
  pose proof (stable_sort_ordered by_kd_desc kd_numeric
                by_kd_desc_total by_kd_desc_trans _ Hnum) as Hs.
  assert (Hall : Forall kd_numeric
                   (stable_sort by_kd_desc
                      (map with_kd (object_values (tempLeaderboard history))))).
  { eapply Permutation_Forall; [symmetry; apply stable_sort_perm | exact Hnum]. }
  revert Hs Hall.
  generalize (stable_sort by_kd_desc
                (map with_kd (object_values (tempLeaderboard history)))).
  intros l Hs. induction Hs as [| x r Hs IH Hx]; intros Hall; constructor.
  - inversion Hall; subst. now apply IH.
  - inversion Hall as [| ? ? Px Pr]; subst.
    rewrite Forall_forall in *. intros y Hy.
    apply by_kd_desc_ge; auto.
Qed.

Lemma leaderboard_sorted_witness :
  StronglySorted kd_ge (aggregateLeaderboardFromGames [old_game; twin_game]).
Proof.
  apply (leaderboard_sorted [old_game; twin_game]).
  repeat constructor; discriminate.
Defined.

(** ** Segmentation as a whole *)

Lemma injective_on_members {A B : Type} (f : A -> B) (l : list A) (x y : A) :
  NoDup (map f l) -> In x l -> In y l -> f x = f y -> x = y.
Proof.
  induction l as [| a r IH]; simpl; intros Hnd Hx Hy E; [contradiction |].
  inversion Hnd as [| ? ? Ha Hr]; subst.
  destruct Hx as [-> | Hx], Hy as [-> | Hy]; auto.
  - exfalso. apply Ha. rewrite E. now apply in_map.
  - exfalso. apply Ha. rewrite <- E. now apply in_map.
Qed.

Lemma chronological_unique (l1 : list FileInfo) :
  forall l2,
    chronological l1 -> chronological l2 -> Permutation l1 l2 ->
    NoDup (map timestamp l1) -> l1 = l2.
Proof.
  induction l1 as [| x r1 IH]; intros l2 H1 H2 Hp Hnd.
  - apply Permutation_nil in Hp. now subst.
  - destruct l2 as [| y r2].
    { apply Permutation_sym, Permutation_nil in Hp. discriminate. }
    inversion H1 as [| ? ? Hs1 Hx]; subst.
    inversion H2 as [| ? ? Hs2 Hy]; subst.
    assert (Hy1 : In y (x :: r1))
      by (apply (Permutation_in _ (Permutation_sym Hp)); now left).
    assert (Hx2 : In x (y :: r2)) by (apply (Permutation_in _ Hp); now left).
    assert (Hxy : timestamp x <= timestamp y).
    { destruct Hy1 as [<- | Hin]; [lia |].
      rewrite Forall_forall in Hx. now apply Hx. }
    assert (Hyx : timestamp y <= timestamp x).
    { destruct Hx2 as [<- | Hin]; [lia |].
      rewrite Forall_forall in Hy. now apply Hy. }
    assert (E : x = y).
    { apply (injective_on_members timestamp (x :: r1)); auto; [now left | lia]. }
    subst y. f_equal. apply IH; try assumption.
    + now apply Permutation_cons_inv in Hp.
    + now inversion Hnd.
Qed.

(** X16. When no two snapshots bear the same timestamp, the grouping does
    not depend on the order in which the files were listed. *)
Theorem grouping_order_independent (fileInfos fileInfos' : list FileInfo) :
  Permutation fileInfos fileInfos' ->
  NoDup (map timestamp fileInfos) ->
  groupFilesIntoGames fileInfos = groupFilesIntoGames fileInfos'.
Proof.
  intros Hp Hnd. unfold groupFilesIntoGames. f_equal. f_equal.
  apply chronological_unique; try apply sort_by_timestamp_sorted.
  - rewrite !stable_sort_perm. exact Hp.
  - eapply Permutation_NoDup; [| exact Hnd].
    apply Permutation_map. symmetry. apply stable_sort_perm.
Qed.

Lemma grouping_order_independent_witness :
  groupFilesIntoGames alice_files = groupFilesIntoGames (rev alice_files).
Proof.
  apply (grouping_order_independent alice_files (rev alice_files)).
  - apply Permutation_rev.
  - vm_compute. repeat constructor; simpl; intuition discriminate.
Defined.

Lemma segment_fold_joins (first : FileInfo) (l : list FileInfo) :
  forall groups rest,
    Forall (fun r => ~ starts_new_group first r) l ->
    fold_left segment_step l (groups, first :: rest)
    = (groups, first :: rest ++ l).
Proof.
  induction l as [| x r IH]; intros groups rest H; cbn [fold_left].
  - now rewrite app_nil_r.
  - inversion H as [| ? ? Hx Hr]; subst.
    destruct (segment_step_open groups first rest x) as [_ Hjoin].
    rewrite (Hjoin Hx). simpl app. rewrite (IH groups (rest ++ [x]) Hr).
    now rewrite <- app_assoc.
Qed.

(** X17. The snapshots of a single match make a single group: when no
    snapshot but possibly the earliest has round 1 and all bear the same
    map, the only group is the whole poll in timestamp order. *)
Theorem single_match_single_group (fileInfos : list FileInfo)
    (first : FileInfo) (rest : list FileInfo) :
  stable_sort by_timestamp fileInfos = first :: rest ->
  Forall (fun r => round r <> Js.Num 1 /\
                   sf_map (data r) = sf_map (data first)) rest ->
  groupFilesIntoGames fileInfos = [first :: rest].
Proof.
  intros Es Hrest. unfold groupFilesIntoGames. rewrite Es.
  cbn [fold_left]. rewrite segment_step_first.
  rewrite segment_fold_joins.
  - reflexivity.
  - eapply Forall_impl; [| exact Hrest]. simpl.
    intros r [Hr Hm] [H | H]; contradiction.
Qed.

Lemma single_match_single_group_witness :
  List.length (groupFilesIntoGames alice_files) = 1%nat.
Proof.
  rewrite (single_match_single_group alice_files
             (alice_snapshot "backup_round01.txt" 0 1 "1" "0")
             [alice_snapshot "backup_round02.txt" 60000 2 "1" "1";
              alice_snapshot "backup_round03.txt" 120000 3 "2" "1"]).
  - reflexivity.
  - reflexivity.
  - repeat constructor; discriminate.
Defined.

Lemma concat_length_nonempty {A : Type} (ls : list (list A)) :
  Forall (fun g => g <> []) ls ->
  (List.length ls <= List.length (List.concat ls))%nat.
Proof.
  induction 1 as [| g r Hg _ IH]; simpl; [lia |].
  rewrite length_app. destruct g; [congruence | simpl; lia].
Qed.

Lemma resolveGroups_length (gameGroups : list (list FileInfo)) :
  forall rs, resolveGroups gameGroups = Done rs ->
             (List.length rs <= List.length gameGroups)%nat.
Proof.
  induction gameGroups as [| g gs IH]; simpl; intros rs E.
  - injection E as <-. simpl. lia.
  - destruct (resolveGroup g) as [| r]; [discriminate |].
    destruct (resolveGroups gs) as [| rs']; [discriminate |].
    injection E as <-. specialize (IH rs' eq_refl).
    destruct r; simpl; lia.
Qed.

(** X18. A poll yields no more results than groups and no more groups than
    snapshots, and at least one group as soon as there is a snapshot. *)
Theorem poll_counts (fileInfos : list FileInfo) :
  (List.length (groupFilesIntoGames fileInfos) <= List.length fileInfos)%nat /\
  (fileInfos <> [] -> groupFilesIntoGames fileInfos <> []) /\
  (forall d,
      (List.length (fst (aggregateGameResults (Snapshots fileInfos) d))
       <= List.length (groupFilesIntoGames fileInfos))%nat).
Proof.
  split; [| split].
  - pose proof (concat_length_nonempty _ (groups_nonempty fileInfos)) as H.
    rewrite groups_concat in H.
    now rewrite (Permutation_length (stable_sort_perm by_timestamp fileInfos)) in H.
  - intros Hne E.
    pose proof (groups_concat fileInfos) as H. rewrite E in H. simpl in H.
    symmetry in H. apply stable_sort_nil_iff in H. contradiction.
  - intros d. cbn [aggregateGameResults].
    destruct (resolveSnapshots fileInfos) as [| rs] eqn:E; cbn [fst].
    + simpl. lia.
    + now apply resolveGroups_length.
Qed.

(** ** The session in progress and the poll *)

Lemma last_error_cons {A : Type} (a b : A) (r : list A) :
  last_error (a :: b :: r) = last_error (b :: r).
Proof.
  unfold last_error. simpl. now rewrite Nat.sub_0_r.
Qed.

Lemma last_error_inv {A : Type} (l : list A) (x : A) :
  last_error l = Some x -> exists pre, l = pre ++ [x].
Proof.
  induction l as [| a [| b r] IH]; intros H.
  - discriminate.
  - injection H as <-. now exists [].
  - rewrite last_error_cons in H. destruct (IH H) as [pre E].
    exists (a :: pre). simpl. now rewrite E.
Qed.

Lemma currentGameOf_inv (now : Z) (gameGroups : list (list FileInfo))
    (cg : CurrentGame) :
  currentGameOf now gameGroups = Some cg ->
  exists currentGroup lastInfo,
    last_error gameGroups = Some currentGroup /\
    last_error currentGroup = Some lastInfo /\
    now - timestamp lastInfo <= 90 * 1000.
Proof.
  unfold currentGameOf.
  destruct (last_error gameGroups) as [g |]; [| discriminate].
  destruct (last_error g) as [x |] eqn:Hx; [| discriminate].
  destruct (Z.ltb_spec (90 * 1000) (now - timestamp x)) as [| Hrecent];
    [discriminate |].
  intros _. exists g, x. auto.
Qed.

(** The session reported for a poll, spelled out on the last group. *)
Lemma current_game_of_poll (fileInfos : list FileInfo) (now : Z) (cg : CurrentGame) :
  aggregateCurrentGame (Snapshots fileInfos) now = Some cg ->
  exists pre first mid lastInfo,
    groupFilesIntoGames fileInfos = pre ++ [first :: mid] /\
    last_error (first :: mid) = Some lastInfo /\
    now - timestamp lastInfo <= 90 * 1000 /\
    cg = {| cg_startTime := timestamp first;
            currentSnapshotTime := timestamp lastInfo;
            cg_duration :=
              formatDuration ((timestamp lastInfo - timestamp first) / 1000);
            cg_map := Js.or_else (sf_map (data lastInfo)) "Unknown";
            currentScore := getFinalScore (data lastInfo);
            currentRound := fold_left max2 (map round mid) (round first);
            cg_players :=
              (playerNames (PlayersOnTeam1 (data lastInfo)),
               playerNames (PlayersOnTeam2 (data lastInfo))) |}.
Proof.
  cbn [aggregateCurrentGame]. intros H.
  destruct (currentGameOf_inv _ _ _ H) as (g & x & Hg & Hx & Hrecent).
  destruct (currentGameOf_recent _ _ _ _ Hg Hx Hrecent)
    as (f & o & c & Es & El & E).
  assert (Hin : In g (groupFilesIntoGames fileInfos)).
  { unfold last_error in Hg. now apply nth_error_In in Hg. }
  rewrite (groups_resort _ _ Hin) in Es, El.
  destruct (last_error_inv _ _ Hg) as [pre Epre].
  exists pre, f, o, x. subst g.
  assert (c = x) by congruence. subst c.
  repeat split; try assumption. congruence.
Qed.

(** X19. A session in progress is anchored at the most recent snapshot of
    the poll: its snapshot time is the timestamp of one of the polled
    files, no polled file is later, it is at most 90 seconds before the
    clock, and the session does not start after it. *)
Theorem current_game_is_latest (fileInfos : list FileInfo) (now : Z)
    (cg : CurrentGame) :
  aggregateCurrentGame (Snapshots fileInfos) now = Some cg ->
  Forall (fun f => timestamp f <= currentSnapshotTime cg) fileInfos /\
  (exists f, In f fileInfos /\ timestamp f = currentSnapshotTime cg) /\
  cg_startTime cg <= currentSnapshotTime cg /\
  now - currentSnapshotTime cg <= 90 * 1000.
Proof.
  intros H.
  destruct (current_game_of_poll _ _ _ H)
    as (pre & first & mid & x & Eg & Hx & Hrecent & ->).
  cbn [currentSnapshotTime cg_startTime].
  destruct (last_error_inv _ _ Hx) as [body Ebody].
  pose proof (sort_by_timestamp_sorted fileInfos) as Hs.
  rewrite <- groups_concat, Eg, concat_app in Hs. simpl in Hs.
  rewrite app_nil_r, Ebody, app_assoc in Hs.
  assert (Hmax : forall a, In a (List.concat pre ++ body) ->
                           timestamp a <= timestamp x).
  { intros a Ha. apply (chronological_across _ [x] Hs a x Ha). now left. }
  assert (Hmem : forall a, In a fileInfos ->
                           In a ((List.concat pre ++ body) ++ [x])).
  { intros a Ha.
    apply (Permutation_in _ (Permutation_sym (stable_sort_perm by_timestamp fileInfos)))
      in Ha.
    rewrite <- groups_concat, Eg, concat_app in Ha. simpl in Ha.
    now rewrite app_nil_r, Ebody, app_assoc in Ha. }
  split; [| split; [| split]].
  - apply Forall_forall. intros a Ha. apply Hmem in Ha.
    apply in_app_or in Ha as [Ha | [<- | []]]; [now apply Hmax | lia].
  - exists x. split; [| reflexivity].
    apply (Permutation_in _ (stable_sort_perm by_timestamp fileInfos)).
    rewrite <- groups_concat, Eg, concat_app. simpl.
    rewrite app_nil_r, Ebody. apply in_or_app. right.
    apply in_or_app. right. now left.
  - assert (Hf : In first (List.concat pre ++ body) \/ first = x).
    { destruct body as [| b body']; simpl in Ebody.
      - right. congruence.
      - left. apply in_or_app. right. injection Ebody as <- _. now left. }
    destruct Hf as [Hf | ->]; [now apply Hmax | lia].
  - exact Hrecent.
Qed.

Lemma current_game_is_latest_witness :
  exists cg,
    aggregateCurrentGame (Snapshots alice_files) 150000 = Some cg /\
    currentSnapshotTime cg = 120000.
Proof.
  eexists. split; [vm_compute; reflexivity |].
  destruct (current_game_is_latest alice_files 150000 _ eq_refl)
    as (_ & _ & _ & _). reflexivity.
Defined.

Lemma max2_nan_l (a : Js.num) : max2 Js.NaN a = Js.NaN.
Proof. reflexivity. Qed.

Lemma fold_max2_nan (l : list Js.num) : fold_left max2 l Js.NaN = Js.NaN.
Proof. induction l as [| a r IH]; simpl; [reflexivity | exact IH]. Qed.

Lemma fold_max2_spoiled (l : list Js.num) (a0 : Js.num) :
  In Js.NaN (a0 :: l) -> fold_left max2 l a0 = Js.NaN.
Proof.
  revert a0. induction l as [| a r IH]; intros a0 H.
  - destruct H as [H | []]. exact H.
  - cbn [fold_left]. apply IH. destruct H as [H | [H | H]].
    + left. now subst a0.
    + left. subst a. now destruct a0.
    + now right.
Qed.

Lemma fold_max2_numbers (l : list Z) (a0 : Z) :
  exists m,
    fold_left max2 (map Js.Num l) (Js.Num a0) = Js.Num m /\
    a0 <= m /\ Forall (fun r => r <= m) l /\ In m (a0 :: l).
Proof.
  revert a0. induction l as [| a r IH]; intros a0; simpl.
  - exists a0. repeat split; auto; lia.
  - destruct (IH (Z.max a0 a)) as (m & E & Hle & Hall & Hin).
    exists m. split; [exact E |]. split; [lia |]. split.
    + constructor; [lia | assumption].
    + destruct Hin as [Hm | Hm]; [| auto].
      destruct (Z.max_spec a0 a) as [[_ Hx] | [_ Hx]]; rewrite Hx in Hm; auto.
Qed.

(** X20. [currentRound] is the highest round of the last group: when the
    rounds of its snapshots are the numbers [first :: rest], it is their
    maximum, one of them and no smaller than any; when the round of some
    snapshot is [NaN], it is [NaN]. *)
Theorem current_round_is_max (fileInfos : list FileInfo) (now : Z)
    (cg : CurrentGame) :
  aggregateCurrentGame (Snapshots fileInfos) now = Some cg ->
  exists pre currentGroup,
    groupFilesIntoGames fileInfos = pre ++ [currentGroup] /\
    (forall rounds,
        map round currentGroup = map Js.Num rounds ->
        exists m, currentRound cg = Js.Num m /\
                  In m rounds /\ Forall (fun r => r <= m) rounds) /\
    (In Js.NaN (map round currentGroup) -> currentRound cg = Js.NaN).
Proof.
  intros H.
  destruct (current_game_of_poll _ _ _ H)
    as (pre & first & mid & x & Eg & Hx & Hrecent & ->).
  exists pre, (first :: mid). split; [exact Eg |].
  cbn [currentRound]. split.
  - intros [| r0 rounds] E; simpl in E; [discriminate |].
    injection E as E0 E. rewrite E0, E.
    destruct (fold_max2_numbers rounds r0) as (m & Em & Hle & Hall & Hin).
    exists m. split; [exact Em |]. split; [exact Hin |].
    constructor; assumption.
  - intros Hnan. now apply fold_max2_spoiled.
Qed.

Lemma current_round_is_max_witness :
  exists cg,
    aggregateCurrentGame (Snapshots alice_files) 150000 = Some cg /\
    currentRound cg = Js.Num 3.
Proof.
  eexists. split; [vm_compute; reflexivity |].
  destruct (current_round_is_max alice_files 150000 _ eq_refl)
    as (_ & _ & _ & _). reflexivity.
Defined.

Lemma resolveGroups_member (gameGroups : list (list FileInfo)) :
  forall rs g r,
    resolveGroups gameGroups = Done rs ->
    In g gameGroups -> resolveGroup g = Done (Some r) -> In r rs.
Proof.
  induction gameGroups as [| h t IH]; simpl; intros rs g r E Hin Hr.
  - contradiction.
  - destruct (resolveGroup h) as [| rh] eqn:Eh; [discriminate |].
    destruct (resolveGroups t) as [| rt] eqn:Et; [discriminate |].
    injection E as <-. destruct Hin as [-> | Hin].
    + rewrite Hr in Eh. injection Eh as <-. now left.
    + specialize (IH rt g r eq_refl Hin Hr).
      destruct rh; [now right | assumption].
Qed.

(** X21. A session in progress is not held back from the results: when the
    poll that reports a session (of a duration other than ["00:00:00"] and
    a score other than 0-0) is resolved, the results contain a game with
    the session's start, its snapshot time as end, its duration, map and
    score. *)
Theorem live_session_also_recorded (fileInfos : list FileInfo) (now : Z)
    (cg : CurrentGame) (d : Disk) :
  aggregateCurrentGame (Snapshots fileInfos) now = Some cg ->
  cg_duration cg <> "00:00:00"%string ->
  team1 (currentScore cg) <> Js.Num 0 \/ team2 (currentScore cg) <> Js.Num 0 ->
  exists r,
    In r (fst (aggregateGameResults (Snapshots fileInfos) d)) /\
    startTime r = cg_startTime cg /\
    endTime r = currentSnapshotTime cg /\
    duration r = cg_duration cg /\
    game_map r = cg_map cg /\
    finalScore r = currentScore cg.
Proof.
  intros H Hdur Hscore.
  destruct (current_game_of_poll _ _ _ H)
    as (pre & first & mid & x & Eg & Hx & Hrecent & ->).
  cbn [cg_startTime currentSnapshotTime cg_duration cg_map currentScore] in *.
  assert (Hin : In (first :: mid) (groupFilesIntoGames fileInfos)).
  { rewrite Eg. apply in_or_app. right. now left. }
  pose proof (groups_resort _ _ Hin) as Hsorted.
  destruct (resolveSnapshots_done fileInfos) as [rs Ers].
  unfold aggregateGameResults. rewrite Ers. cbn [fst].
  assert (Hr : exists r,
             resolveGroup (first :: mid) = Done (Some r) /\
             startTime r = timestamp first /\
             endTime r = timestamp x /\
             duration r =
               formatDuration ((timestamp x - timestamp first) / 1000) /\
             game_map r = Js.or_else (sf_map (data x)) "Unknown" /\
             finalScore r = getFinalScore (data x)).
  { unfold resolveGroup. rewrite Hsorted, Hx. cbn [nth_error].
    destruct (String.eqb_spec
                (formatDuration ((timestamp x - timestamp first) / 1000))
                "00:00:00") as [E | _]; [contradiction |].
    destruct (Js.strict_eq (team1 (getFinalScore (data x))) (Js.Num 0) &&
              Js.strict_eq (team2 (getFinalScore (data x))) (Js.Num 0)) eqn:Ez.
    - apply andb_true_iff in Ez as [E1 E2].
      apply strict_eq_zero in E1. apply strict_eq_zero in E2. tauto.
    - destruct (decide _ _) as [w l]. eexists. split; [reflexivity |].
      cbn. repeat split. }
  destruct Hr as (r & Er & Hfields).
  exists r. split; [| exact Hfields].
  unfold resolveSnapshots in Ers.
  exact (resolveGroups_member _ _ _ _ Ers Hin Er).
Qed.

Lemma live_session_also_recorded_witness :
  exists cg r,
    aggregateCurrentGame (Snapshots alice_files) 150000 = Some cg /\
    In r (fst (aggregateGameResults (Snapshots alice_files) (disk_with []))) /\
    endTime r = currentSnapshotTime cg.
Proof.
  eexists.
  destruct (live_session_also_recorded alice_files 150000 _ (disk_with []) eq_refl)
    as (r & Hin & _ & He & _).
  - vm_compute. discriminate.
  - left. vm_compute. discriminate.
  - exists r. split; [reflexivity |]. split; assumption.
Defined.

(** ** Unreadable scores *)

(** X22. A result whose final score is [NaN] on either side is never a
    draw and never a win of team 1: [winner] holds the names of team 2's
    roster and [loser] those of team 1's. *)
Theorem unreadable_score_team2_wins (group : list FileInfo) (r : GameResult) :
  resolveGroup group = Done (Some r) ->
  team1 (finalScore r) = Js.NaN \/ team2 (finalScore r) = Js.NaN ->
  winner r = map name (players_team2 (players r)) /\
  loser r = map name (players_team1 (players r)).
Proof.
  intros H Hnan. apply resolveGroup_emits in H
    as (f & l & _ & _ & _ & _ & _ & _ & _ & Hw).
  injection Hw as Hwin Hlose. rewrite Hwin, Hlose. unfold decide.
  destruct Hnan as [E | E]; rewrite E.
  - split; reflexivity.
  - destruct (team1 (finalScore r)); split; reflexivity.
Qed.

(** A group whose last snapshot has an unreadable score for team 1, which
    had been leading 5-2. *)
Lemma unreadable_score_team2_wins_witness :
  let group := [ snapshot "backup_round01.txt" 0 1 "de_inferno" "5" "2";
                 snapshot "backup_round08.txt" 420000 8 "de_inferno" "x" "2" ] in
  exists r, resolveGroup group = Done (Some r) /\
            winner r = ["Dave"%string] /\ loser r = ["Carol"%string].
Proof.
  intros group. eexists. split; [vm_compute; reflexivity |].
  apply (unreadable_score_team2_wins group _ eq_refl). left. reflexivity.
Defined.
